(** * Logify: a shallow embedding of [src/index.ts]

    The development follows the source file top to bottom: the type guards,
    the colour table, and the methods of [class Logify].

    - Strings are sequences of 7-bit characters ([string], [list ascii]);
      whitespace, letter case and the punctuation class are the ASCII ones.
    - Numbers are the integer-valued ones ([Z]), printed in decimal.
    - A value is a tree: a primitive, an opaque function, an array, or an
      object given by its own enumerable string-keyed properties in
      [Object.keys] order.
    - The objects the caller passes as [params] live in a heap and are
      passed by reference, so that [delete paramsToSend.error] is seen by
      the caller.
    - A log method is a function from the world (heap, console, network,
      rejected promises, clock) to an outcome and a world; an outcome is a
      normal return or a throw.
    - [parseError] may throw; the gates and the default-parameter supplier
      are total functions of no argument, and [fetch] either starts the
      request or throws while starting it. *)

From Stdlib Require Import ZArith Ascii String List Bool Lia DecimalString.
From stdpp Require Import base option gmap.

Set Warnings "-register-all".
Import ListNotations.

Open Scope string_scope.
Open Scope list_scope.

(** ** Characters and strings *)

Module Chars.

Abbreviation chars := (list ascii).

Definition code (c : ascii) : nat := nat_of_ascii c.

(** The punctuation class of the message regex: the fourteen characters
    ( ) - & $ # ! [ ] { } ' , . and the double quote (code 34). *)
Definition punct (c : ascii) : bool :=
  existsb (Ascii.eqb c)
    (list_ascii_of_string "()-&$#![]{}',." ++ [ascii_of_nat 34]).

(** [\s] of the regex, which is also the set removed by [String.prototype.trim]:
    TAB, LF, VT, FF, CR and SPACE (the ASCII part of WhiteSpace + LineTerminator). *)
Definition space (c : ascii) : bool :=
  existsb (Nat.eqb (code c)) [9; 10; 11; 12; 13; 32]%nat.

Definition toLowerCase1 (c : ascii) : ascii :=
  if (65 <=? code c)%nat && (code c <=? 90)%nat
  then ascii_of_nat (code c + 32) else c.

Definition toUpperCase1 (c : ascii) : ascii :=
  if (97 <=? code c)%nat && (code c <=? 122)%nat
  then ascii_of_nat (code c - 32) else c.

Definition toLowerCase (s : chars) : chars := map toLowerCase1 s.
Definition toUpperCase (s : chars) : chars := map toUpperCase1 s.

(** [String.prototype.trim]: whitespace is removed from both ends. *)
Fixpoint trimStart (s : chars) : chars :=
  match s with
  | c :: s' => if space c then trimStart s' else s
  | [] => []
  end.

Fixpoint trimEnd (s : chars) : chars :=
  match s with
  | c :: s' =>
      match trimEnd s' with
      | [] => if space c then [] else [c]
      | r => c :: r
      end
  | [] => []
  end.

Definition trim (s : chars) : chars := trimEnd (trimStart s).

End Chars.

(** ** A backtracking matcher for the regex fragment used by the source

    Character classes, greedy [+] over a class, concatenation, ordered
    alternation and the anchors [^] and [$] (no [m] flag).  The matcher is
    written in continuation-passing style, as a backtracking engine tries the
    alternatives: the continuation receives the rest of the subject and the
    number of characters consumed so far. *)

Module Regex.
Import Chars.

Inductive re : Type :=
| Cls (p : ascii -> bool)
| PlusCls (p : ascii -> bool)
| Bol
| Eol
| Seq (r1 r2 : re)
| Alt (r1 r2 : re).

Definition orelse {A} (x y : option A) : option A :=
  match x with Some _ => x | None => y end.

(** One or more characters of class [p], longest first. *)
Fixpoint plus (p : ascii -> bool) (s : chars) (n : nat)
         (k : chars -> nat -> option nat) : option nat :=
  match s with
  | c :: s' => if p c then orelse (plus p s' (S n) k) (k s' (S n)) else None
  | [] => None
  end.

(** [exec r bol s n k]: match [r] at the current position; [bol] tells
    whether that position is index 0 of the subject. *)
Fixpoint exec (r : re) (bol : bool) (s : chars) (n : nat)
         (k : bool -> chars -> nat -> option nat) : option nat :=
  match r with
  | Cls p =>
      match s with
      | c :: s' => if p c then k false s' (S n) else None
      | [] => None
      end
  | PlusCls p => plus p s n (k false)
  | Bol => if bol then k bol s n else None
  | Eol => match s with [] => k bol s n | _ :: _ => None end
  | Seq r1 r2 => exec r1 bol s n (fun b s' n' => exec r2 b s' n' k)
  | Alt r1 r2 => orelse (exec r1 bol s n k) (exec r2 bol s n k)
  end.

(** Length of the match of [r] starting exactly at the current position. *)
Definition match_here (r : re) (bol : bool) (s : chars) : option nat :=
  exec r bol s 0 (fun _ _ n => Some n).

(** [subject.replace(/r/g, by)]: scan left to right; at a match the
    replacement is emitted and scanning resumes after the match ([skip]
    counts the characters of the match still to be passed over); otherwise
    the character is copied.  After an empty match the engine steps one
    character forward, copying it. *)
Fixpoint replace_from (r : re) (by_ : chars) (bol : bool) (skip : nat)
         (s : chars) : chars :=
  match s with
  | [] =>
      match skip, match_here r bol [] with
      | O, Some _ => by_
      | _, _ => []
      end
  | c :: s' =>
      match skip with
      | S j => replace_from r by_ false j s'
      | O =>
          match match_here r bol s with
          | Some (S m) => by_ ++ replace_from r by_ false m s'
          | Some O => by_ ++ c :: replace_from r by_ false 0 s'
          | None => c :: replace_from r by_ false 0 s'
          end
      end
  end.

Definition replace_all (r : re) (by_ : chars) (s : chars) : chars :=
  replace_from r by_ true 0 s.

End Regex.

(** ** Message sanitisation ([_constructBackendLogEvent], lines 129-132) *)

Module Sanitize.
Import Chars Regex.

(** [/(?:[()\-&$#![\]{}"',.]+(?:\s|$)|(?:^|\s)[()\-&$#![\]{}"',.]+)/g] *)
Definition message_regex : re :=
  Alt (Seq (PlusCls punct) (Alt (Cls space) Eol))
      (Seq (Alt Bol (Cls space)) (PlusCls punct)).

Definition sanitize_chars (message : chars) : chars :=
  toLowerCase (trim (replace_all message_regex [" "%char] message)).

Definition sanitizedMessage (message : string) : string :=
  string_of_list_ascii (sanitize_chars (list_ascii_of_string message)).

End Sanitize.

(** ** String-level operations used by the logger *)

Module Str.
Import Chars.

Definition of_chars : chars -> string := string_of_list_ascii.
Definition to_chars : string -> chars := list_ascii_of_string.

Definition trim (s : string) : string := of_chars (Chars.trim (to_chars s)).
Definition toUpperCase (s : string) : string :=
  of_chars (Chars.toUpperCase (to_chars s)).

(** [s.split(sep)] for a one-character separator. *)
Fixpoint split (sep : ascii) (s : string) : list string :=
  match s with
  | EmptyString => [EmptyString]
  | String c s' =>
      if Ascii.eqb c sep then EmptyString :: split sep s'
      else match split sep s' with
           | piece :: rest => String c piece :: rest
           | [] => [String c EmptyString]
           end
  end.

(** [pieces.join(sep)] *)
Definition join (sep : string) (pieces : list string) : string :=
  String.concat sep pieces.

(** [Number.prototype.toString] on an integer-valued number. *)
Definition of_number (n : Z) : string := NilZero.string_of_int (Z.to_int n).

End Str.

(** ** JavaScript values and plain objects *)

Module JS.

(** Values as the logger observes them: primitives, opaque functions,
    arrays, and objects given by their own enumerable string-keyed
    properties in [Object.keys] order.  An [Error] instance therefore is
    [VObj] of whatever enumerable properties were attached to it. *)
Inductive value : Type :=
| VUndefined
| VNull
| VBool (b : bool)
| VNum (n : Z)
| VStr (s : string)
| VFunc
| VArr (items : list value)
| VObj (props : list (string * value)).

Abbreviation obj := (list (string * value)).

(** [!!v] *)
Definition truthy (v : value) : bool :=
  match v with
  | VUndefined | VNull => false
  | VBool b => b
  | VNum n => negb (n =? 0)%Z
  | VStr s => negb (String.eqb s "")
  | VFunc | VArr _ | VObj _ => true
  end.

(** [a || b] *)
Definition or_else (a b : value) : value := if truthy a then a else b.

Definition Object_keys (o : obj) : list string := map fst o.

Fixpoint lookup_key (k : string) (o : obj) : option value :=
  match o with
  | [] => None
  | (k', v) :: o' => if String.eqb k k' then Some v else lookup_key k o'
  end.

(** [o[k]] *)
Definition get (o : obj) (k : string) : value :=
  match lookup_key k o with Some v => v | None => VUndefined end.

(** [k in o] *)
Definition has_key (k : string) (o : obj) : bool :=
  match lookup_key k o with Some _ => true | None => false end.

(** [delete o[k]] *)
Definition delete_key (k : string) (o : obj) : obj :=
  List.filter (fun kv => negb (String.eqb k (fst kv))) o.

(** Canonical array indices: decimal strings without a leading zero that
    denote an integer below 2^32 - 1.  Such keys are enumerated first, in
    ascending numeric order; every other key follows in creation order. *)
Definition digit (c : ascii) : option N :=
  let n := N_of_ascii c in
  if (48 <=? n)%N && (n <=? 57)%N then Some (n - 48)%N else None.

Fixpoint digits (s : string) (acc : N) : option N :=
  match s with
  | EmptyString => Some acc
  | String c s' =>
      match digit c with
      | Some d => digits s' (10 * acc + d)%N
      | None => None
      end
  end.

Definition array_index (k : string) : option N :=
  match k with
  | EmptyString => None
  | String c rest =>
      if Ascii.eqb c "0" && negb (String.eqb rest "") then None
      else match digits k 0 with
           | Some n => if (n <? 4294967295)%N then Some n else None
           | None => None
           end
  end.

Fixpoint replace_value (k : string) (v : value) (o : obj) : obj :=
  match o with
  | [] => []
  | (k', v') :: o' =>
      if String.eqb k k' then (k', v) :: o' else (k', v') :: replace_value k v o'
  end.

Fixpoint insert_index (n : N) (k : string) (v : value) (o : obj) : obj :=
  match o with
  | [] => [(k, v)]
  | (k', v') :: o' =>
      match array_index k' with
      | Some n' =>
          if (n' <? n)%N then (k', v') :: insert_index n k v o'
          else (k, v) :: o
      | None => (k, v) :: o
      end
  end.

(** Defining property [k] of an object literal under construction: an
    existing property keeps its place and takes the new value, a new one
    is placed according to the enumeration order. *)
Definition define (k : string) (v : value) (o : obj) : obj :=
  if has_key k o then replace_value k v o
  else match array_index k with
       | Some n => insert_index n k v o
       | None => o ++ [(k, v)]
       end.

Fixpoint index_props (i : nat) (items : list value) : obj :=
  match items with
  | [] => []
  | x :: rest => (Str.of_number (Z.of_nat i), x) :: index_props (S i) rest
  end.

Fixpoint char_props (i : nat) (s : string) : obj :=
  match s with
  | EmptyString => []
  | String c s' =>
      (Str.of_number (Z.of_nat i), VStr (String c EmptyString))
        :: char_props (S i) s'
  end.

(** The own enumerable properties copied by [{...v}]. *)
Definition own_enumerable (v : value) : obj :=
  match v with
  | VObj o => o
  | VArr items => index_props 0 items
  | VStr s => char_props 0 s
  | VUndefined | VNull | VBool _ | VNum _ | VFunc => []
  end.

(** [{...target, ...source}] continued on the literal [target]. *)
Definition spread (target : obj) (source : obj) : obj :=
  fold_left (fun t kv => define (fst kv) (snd kv) t) source target.

Definition isString (v : value) : bool :=
  match v with VStr _ => true | _ => false end.

Definition isNumber (v : value) : bool :=
  match v with VNum _ => true | _ => false end.

(** [typeof value === 'object' && value !== null] *)
Definition isObject (v : value) : bool :=
  match v with VArr _ | VObj _ => true | _ => false end.

(** Template-literal interpolation of a string or a number. *)
Definition to_string (v : value) : string :=
  match v with
  | VStr s => s
  | VNum n => Str.of_number n
  | _ => ""
  end.

End JS.

(** ** [JSON.stringify] *)

Module JSON.
Import JS.

Definition hex_digit (n : nat) : ascii :=
  ascii_of_nat (if (n <? 10)%nat then 48 + n else 87 + n).

Definition escape_char (c : ascii) : string :=
  let n := nat_of_ascii c in
  if (n =? 34)%nat then String "\" (String c EmptyString)
  else if (n =? 92)%nat then String "\" (String "\" EmptyString)
  else if (n =? 8)%nat then String "\" (String "b" EmptyString)
  else if (n =? 12)%nat then String "\" (String "f" EmptyString)
  else if (n =? 10)%nat then String "\" (String "n" EmptyString)
  else if (n =? 13)%nat then String "\" (String "r" EmptyString)
  else if (n =? 9)%nat then String "\" (String "t" EmptyString)
  else if (n <? 32)%nat then
    String "\" (String "u" (String "0" (String "0"
      (String (hex_digit (n / 16)) (String (hex_digit (n mod 16)) EmptyString)))))
  else String c EmptyString.

Fixpoint escape (s : string) : string :=
  match s with
  | EmptyString => EmptyString
  | String c s' => String.append (escape_char c) (escape s')
  end.

Definition quote (s : string) : string :=
  String (ascii_of_nat 34) (String.append (escape s) (String (ascii_of_nat 34) EmptyString)).

(** [None] is the [undefined] result for values that have no JSON text. *)
Fixpoint stringify (v : value) : option string :=
  match v with
  | VUndefined | VFunc => None
  | VNull => Some "null"
  | VBool b => Some (if b then "true" else "false")
  | VNum n => Some (Str.of_number n)
  | VStr s => Some (quote s)
  | VArr items =>
      Some (String.append "["
             (String.append
                (Str.join "," (map (fun x => default "null" (stringify x)) items))
                "]"))
  | VObj o =>
      Some (String.append "{"
             (String.append
                (Str.join ","
                   (flat_map
                      (fun kv =>
                         match stringify (snd kv) with
                         | Some text =>
                             [String.append (quote (fst kv)) (String.append ":" text)]
                         | None => []
                         end) o))
                "}"))
  end.

(** The members of an object that reach the JSON text, with the text of
    their values, in output order. *)
Definition members (o : obj) : list (string * string) :=
  flat_map
    (fun kv =>
       match stringify (snd kv) with
       | Some text => [(fst kv, text)]
       | None => []
       end) o.

(** [JSON.stringify(o)] on an object literal always yields a string. *)
Definition stringify_object (o : obj) : string :=
  default "" (stringify (VObj o)).

End JSON.

(** ** The world the logger acts on *)

Module World.
Import JS.

(** Objects owned by the caller are reached through references. *)
Abbreviation loc := nat (only parsing).

(** An argument of [console.log]: a string, or an object passed by
    reference. *)
Inductive console_arg : Type :=
| CStr (s : string)
| CRef (l : loc).

(** The arguments of one [fetch(url, init)] call. *)
Record request : Type := {
  url : string;
  method : string;
  body : string;
  headers : list (string * string)
}.

Record world : Type := {
  heap : gmap loc obj;               (* the caller's objects *)
  console : list (list console_arg); (* [console.log] calls, oldest first *)
  network : list request;            (* [fetch] calls initiated, oldest first *)
  rejected : list loc;               (* reasons of rejected, unobserved promises *)
  clock : Z                          (* [new Date().getTime()] *)
}.

Definition set_heap (h : gmap loc obj) (w : world) : world :=
  {| heap := h; console := console w; network := network w;
     rejected := rejected w; clock := clock w |}.

Definition push_console (args : list console_arg) (w : world) : world :=
  {| heap := heap w; console := console w ++ [args]; network := network w;
     rejected := rejected w; clock := clock w |}.

Definition push_request (req : request) (w : world) : world :=
  {| heap := heap w; console := console w; network := network w ++ [req];
     rejected := rejected w; clock := clock w |}.

Definition push_rejected (e : loc) (w : world) : world :=
  {| heap := heap w; console := console w; network := network w;
     rejected := rejected w ++ [e]; clock := clock w |}.

(** A computation returns normally or throws; what is thrown is a
    reference to an error object. *)
Inductive outcome (A : Type) : Type :=
| Ok (a : A)
| Throw (e : loc).
Arguments Ok {A} a.
Arguments Throw {A} e.

Definition M (A : Type) : Type := world -> outcome A * world.

Definition ret {A} (a : A) : M A := fun w => (Ok a, w).

Definition bind {A B} (m : M A) (k : A -> M B) : M B :=
  fun w =>
    match m w with
    | (Ok a, w') => k a w'
    | (Throw e, w') => (Throw e, w')
    end.

Definition lift {A} (r : outcome A) : M A := fun w => (r, w).

(** [try { body } catch (e) { handler(e) }] *)
Definition try_catch {A} (body : M A) (handler : loc -> M A) : M A :=
  fun w =>
    match body w with
    | (Ok a, w') => (Ok a, w')
    | (Throw e, w') => handler e w'
    end.

(** Calling an [async] function whose body has no [await]: the body runs
    to its end at once, and a throw rejects the returned promise instead of
    reaching the caller, who does not observe that promise. *)
Definition async (body : M unit) : M unit :=
  fun w =>
    match body w with
    | (Ok _, w') => (Ok tt, w')
    | (Throw e, w') => (Ok tt, push_rejected e w')
    end.

(** Reading the object behind a reference. *)
Definition deref (w : world) (l : loc) : obj := default [] (heap w !! l).

Definition read (l : loc) : M obj := fun w => (Ok (deref w l), w).

(** Updating the object behind a reference in place. *)
Definition write (l : loc) (o : obj) : M unit :=
  fun w => (Ok tt, set_heap (<[l := o]> (heap w)) w).

Definition console_log (args : list console_arg) : M unit :=
  fun w => (Ok tt, push_console args w).

Definition Date_now : M Z := fun w => (Ok (clock w), w).

End World.

Declare Scope logify_scope.
Notation "'let*' x ':=' m 'in' k" := (World.bind m (fun x => k))
  (at level 10, x name, m at level 100, k at level 200) : logify_scope.

(** ** The logger *)

Module Logify.
Import JS World.
Local Open Scope logify_scope.

Inductive LoggingLevelType : Type :=
| LDebug | LInfo | LWarn | LError | LFatal.

(** The string literal behind each member of [LoggingLevelType]. *)
Definition level_name (type : LoggingLevelType) : string :=
  match type with
  | LDebug => "debug"
  | LInfo => "info"
  | LWarn => "warn"
  | LError => "error"
  | LFatal => "fatal"
  end.

(** An optional property that holds either a constant or a function; the
    guards [isFunction] and [isBoolean] of the source tell the cases apart. *)
Inductive setting (A F : Type) : Type :=
| Unset
| Const (a : A)
| Fn (f : F).
Arguments Unset {A F}.
Arguments Const {A F} a.
Arguments Fn {A F} f.

Definition isFunction {A F} (p : setting A F) : bool :=
  match p with Fn _ => true | _ => false end.

Definition isBoolean {F} (p : setting bool F) : bool :=
  match p with Const _ => true | _ => false end.

Record printColorsType : Type := {
  color_debug : option string;
  color_info : option string;
  color_warn : option string;
  color_error : option string;
  color_fatal : option string
}.

(** [printColors[type]] *)
Definition color_at (c : printColorsType) (type : LoggingLevelType) : option string :=
  match type with
  | LDebug => color_debug c
  | LInfo => color_info c
  | LWarn => color_warn c
  | LError => color_error c
  | LFatal => color_fatal c
  end.

(** [LogifyPropsType].  The gates and the default-parameter supplier are
    functions of no argument that return a value; [parseError] receives
    caller data and may throw. *)
Record LogifyPropsType : Type := {
  endpoint : string;
  defaultParams : setting obj (unit -> obj);
  parseError : option (value -> outcome value);
  shouldSendLogsIf : setting bool (unit -> bool);
  shouldLogToConsole : setting bool (unit -> bool);
  printColors : option printColorsType
}.

Definition getDefaultColorForLoggingLevel (type : LoggingLevelType) : string :=
  match type with
  | LDebug => "#FFFFFF"
  | LInfo => "#2AA2F6"
  | LWarn => "#FABA2F"
  | LError => "#F35369"
  | LFatal => "#F35369"
  end.

Section Methods.

(** [this.props] *)
Variable props : LogifyPropsType.

(** The transport collaborator: [fetch] either starts the request, or
    throws while starting it. *)
Variable fetch_throws : request -> option loc.

Definition fetch (req : request) : M unit :=
  fun w =>
    match fetch_throws req with
    | Some e => (Throw e, push_request req w)
    | None => (Ok tt, push_request req w)
    end.

(** The callback of [keys.forEach] in [_transformObjectToLogString]:
    one key, the log string so far, the log string afterwards.  The value is
    [parseError(params[key])] when the key is [error] and [parseError] is a
    function, and [params[key]] otherwise. *)
Definition logString_step (params : obj) (key : string) (logString : string)
  : outcome string :=
  match
    (if String.eqb key "error" then
       match parseError props with
       | Some f => f (get params key)
       | None => Ok (get params key)
       end
     else Ok (get params key))
  with
  | Throw e => Throw e
  | Ok value =>
      if isString value || isNumber value
      then Ok (String.append logString
                 (String.append key
                    (String.append "=" (String.append (to_string value) " "))))
      else Ok logString
  end.

Fixpoint forEach (params : obj) (keys : list string) (logString : string)
  : outcome string :=
  match keys with
  | [] => Ok logString
  | key :: rest =>
      match logString_step params key logString with
      | Ok logString' => forEach params rest logString'
      | Throw e => Throw e
      end
  end.

(** [params && isObject(params)] holds exactly when an object was passed. *)
Definition _transformObjectToLogString (params : option loc) : M string :=
  match params with
  | Some l =>
      let* o := read l in
      let* logString := lift (forEach o (Object_keys o) "") in
      ret (Str.trim logString)
  | None => ret ""
  end.

Record LogEvent : Type := { jsonLog : string; timestamp : Z }.

(** [this.props.parseError?.(x)] *)
Definition parseError_opt (x : value) : outcome value :=
  match parseError props with
  | Some f => f x
  | None => Ok VUndefined
  end.

(** [isFunction(defaultParams) ? defaultParams() :
     isObject(defaultParams) ? defaultParams : {}] *)
Definition resolved_defaultParams : obj :=
  match defaultParams props with
  | Fn f => f tt
  | Const o => o
  | Unset => []
  end.

(** The object literal handed to [JSON.stringify] by
    [_constructBackendLogEvent], with the steps that lead to it.
    [paramsToSend] starts as an alias of [params]: the [delete] acts on the
    caller's object, and only afterwards is [paramsToSend] rebound to a
    fresh object literal. *)
Definition backendLogObject
  (type : LoggingLevelType) (message : string) (params : option loc)
  : M obj :=
  let uppercaseType := Str.toUpperCase (level_name type) in
  let* raw :=
    match params with
    | Some l => let* o := read l in ret (get o "error")
    | None => ret VUndefined
    end in
  let* parsed := lift (parseError_opt raw) in
  let formattedError := or_else parsed raw in
  let defaultParams := resolved_defaultParams in
  let sanitizedMessage := Sanitize.sanitizedMessage message in
  let* paramsToSend :=
    match params with
    | Some l =>
        if truthy formattedError then
          let* o := read l in
          let* _ := (if has_key "error" o
                     then write l (delete_key "error" o) else ret tt) in
          let* o' := read l in
          ret (spread (spread [] o') (own_enumerable formattedError))
        else read l
    | None => ret []
    end in
  ret (spread
         (spread
            (define "msg" (VStr sanitizedMessage)
               (define "level" (VStr uppercaseType) []))
            defaultParams)
         paramsToSend).

Definition _constructBackendLogEvent
  (type : LoggingLevelType) (message : string) (params : option loc)
  : M LogEvent :=
  let* object := backendLogObject type message params in
  let* now := Date_now in
  ret {| jsonLog := JSON.stringify_object object; timestamp := now |}.

Definition _constructStyledConsoleLogMessage
  (type : LoggingLevelType) (message : string) (params : string) : list string :=
  let typeText := Str.toUpperCase (level_name type) in
  let loggingColor :=
    match printColors props with
    | Some c =>
        match color_at c type with
        | Some col => if String.eqb col "" then getDefaultColorForLoggingLevel type else col
        | None => getDefaultColorForLoggingLevel type
        end
    | None => getDefaultColorForLoggingLevel type
    end in
  let nl := String (ascii_of_nat 10) EmptyString in
  let paramsString :=
    if (0 <? String.length params)%nat
    then String.concat "" [params; nl; nl] else "" in
  let title :=
    String.concat "" [nl; nl; "%c"; typeText; "%c "; message; nl; nl; paramsString] in
  let titleStyle :=
    String.concat ""
      ["font-weight: bold; font-size: 14px; color: black; padding: 0px 7px; background-color: ";
       loggingColor; ";"] in
  let messageStyle :=
    String.concat "" ["font-weight: bold; font-size: 12px; color: "; loggingColor; ";"] in
  [title; titleStyle; messageStyle].

(** The first argument of every log method's styled message:
    [this._transformObjectToLogString(params).split(' ').join('\n')] *)
Definition params_lines (params : option loc) : M string :=
  let* s := _transformObjectToLogString params in
  ret (Str.join (String (ascii_of_nat 10) EmptyString) (Str.split " " s)).

Definition debug (message : string) (params : option loc) : M unit :=
  let* lines := params_lines params in
  let logMessage := _constructStyledConsoleLogMessage LDebug message lines in
  console_log
    (map CStr logMessage
       ++ [match params with Some l => CRef l | None => CStr "" end]).

Definition post (log : string) : request :=
  {| url := endpoint props;
     method := "POST";
     body := log;
     headers := [("Content-Type", "application/json; charset=utf-8")] |}.

Definition _sendLogToGrafana (log : string) : M unit :=
  async
    (let hasLogicToSend :=
       isBoolean (shouldSendLogsIf props) || isFunction (shouldSendLogsIf props) in
     if hasLogicToSend then
       let shouldSend :=
         match shouldSendLogsIf props with
         | Const b => b
         | Fn f => f tt
         | Unset => false
         end in
       if shouldSend then
         try_catch (fetch (post log))
           (fun e => debug "error sending log" (Some e))
       else ret tt
     else
       try_catch (fetch (post log))
         (fun e => debug "error sending log" (Some e))).

Definition _shouldLogToConsole : bool :=
  let hasLogic :=
    isBoolean (shouldLogToConsole props) || isFunction (shouldLogToConsole props) in
  if hasLogic then
    match shouldLogToConsole props with
    | Const b => b
    | Fn f => f tt
    | Unset => true
    end
  else true.

Definition info (message : string) (params : option loc) : M unit :=
  let* lines := params_lines params in
  let logMessage := _constructStyledConsoleLogMessage LInfo message lines in
  let* _ := (if _shouldLogToConsole
             then console_log (map CStr logMessage) else ret tt) in
  let* ev := _constructBackendLogEvent LInfo message params in
  _sendLogToGrafana (jsonLog ev).

Definition warn (message : string) (params : option loc) : M unit :=
  let* lines := params_lines params in
  let logMessage := _constructStyledConsoleLogMessage LWarn message lines in
  let* _ := (if _shouldLogToConsole
             then console_log (map CStr logMessage) else ret tt) in
  let* ev := _constructBackendLogEvent LWarn message params in
  _sendLogToGrafana (jsonLog ev).

Definition error (message : string) (params : option loc) : M unit :=
  let* lines := params_lines params in
  let logMessage := _constructStyledConsoleLogMessage LError message lines in
  let* _ := (if _shouldLogToConsole
             then console_log (map CStr logMessage) else ret tt) in
  let* ev := _constructBackendLogEvent LError message params in
  _sendLogToGrafana (jsonLog ev).

Definition fatal (message : string) (params : option loc) : M unit :=
  let* lines := params_lines params in
  let logMessage := _constructStyledConsoleLogMessage LFatal message lines in
  let* _ := (if _shouldLogToConsole
             then console_log (map CStr logMessage) else ret tt) in
  let* ev := _constructBackendLogEvent LFatal message params in
  _sendLogToGrafana (jsonLog ev).

(** The public log method of a given level. *)
Definition log (type : LoggingLevelType) : string -> option loc -> M unit :=
  match type with
  | LDebug => debug
  | LInfo => info
  | LWarn => warn
  | LError => error
  | LFatal => fatal
  end.

End Methods.

End Logify.

(** * Specification-side definitions *)

Import Chars Regex Sanitize JS World Logify.

(** ** Sanitisation *)

Module SanitizeSpec.

(** Length of the punctuation run at the head of [s]. *)
Fixpoint run (s : chars) : nat :=
  match s with
  | c :: s' => if punct c then S (run s') else 0
  | [] => 0
  end.

(** First alternative: a punctuation run followed by whitespace or the end. *)
Definition alt1 (s : chars) : option nat :=
  match run s with
  | 0 => None
  | S m =>
      match skipn (S m) s with
      | [] => Some (S m)
      | c :: _ => if space c then Some (S (S m)) else None
      end
  end.

(** Second alternative: the start or one whitespace, then a punctuation run. *)
Definition alt2 (bol : bool) (s : chars) : option nat :=
  orelse
    (if bol then match run s with 0 => None | S m => Some (S m) end else None)
    (match s with
     | c :: s' =>
         if space c then match run s' with 0 => None | S m => Some (S (S m)) end
         else None
     | [] => None
     end).

Definition scan (bol : bool) (s : chars) : chars :=
  replace_from message_regex [" "%char] bol 0 s.

(** No punctuation character is followed by one whitespace character and
    then punctuation again. *)
Fixpoint no_punct_space_punct (s : chars) : bool :=
  match s with
  | a :: t =>
      match t with
      | b :: c :: _ => negb (punct a && space b && punct c)
      | _ => true
      end && no_punct_space_punct t
  | [] => true
  end.

(** What precedes a position in a string the regex cannot match. *)
Inductive before : Type := Gap | Word | Punct.

Definition gap (p : before) : bool := match p with Gap => true | _ => false end.
Definition in_run (p : before) : bool := match p with Punct => true | _ => false end.

(** Every punctuation run has a word character on both sides. *)
Fixpoint settled (p : before) (t : chars) : bool :=
  match t with
  | [] => negb (in_run p)
  | c :: t' =>
      if punct c then negb (gap p) && settled Punct t'
      else if space c then negb (in_run p) && settled Gap t'
      else settled Word t'
  end.

(** The greedy run with the continuation of the first alternative. *)
Definition k_alt1 (s : chars) (n : nat) : option nat :=
  orelse (match s with c :: _ => if space c then Some (S n) else None | [] => None end)
         (match s with [] => Some n | _ :: _ => None end).

(** The run at the head of [s] is followed by a word character. *)
Definition tail_word (s : chars) : bool :=
  match skipn (run s) s with
  | c :: _ => negb (punct c) && negb (space c)
  | [] => false
  end.

(** The head of a string that [trimStart] leaves alone. *)
Definition starts_clean (t : chars) : bool :=
  match t with c :: _ => negb (space c) | [] => true end.

End SanitizeSpec.

(** ** Objects *)

Module ObjSpec.
(** No key occurs twice, as in every JavaScript object. *)
Fixpoint unique_keys (o : obj) : bool :=
  match o with
  | [] => true
  | (k, _) :: o' => negb (has_key k o') && unique_keys o'
  end.

(** The last property named [k] of a spread source. *)
Definition last_value (k : string) (o : obj) : option value := lookup_key k (rev o).

End ObjSpec.

(** ** The console rendering as the specification words it *)
Module RenderSpec.

(** The resolved value of an entry: the normalizer's output under the key
    [error] when a normalizer is configured, the raw value otherwise. *)
Definition resolve (props : LogifyPropsType) (kv : string * value) : outcome value :=
  if String.eqb (fst kv) "error" then
    match parseError props with
    | Some f => f (snd kv)
    | None => Ok (snd kv)
    end
  else Ok (snd kv).

Fixpoint resolve_all (props : LogifyPropsType) (o : obj) : outcome obj :=
  match o with
  | [] => Ok []
  | kv :: o' =>
      match resolve props kv with
      | Throw e => Throw e
      | Ok v =>
          match resolve_all props o' with
          | Throw e => Throw e
          | Ok r => Ok ((fst kv, v) :: r)
          end
      end
  end.

Definition printable (kv : string * value) : bool :=
  isString (snd kv) || isNumber (snd kv).

(** [key=value] *)
Definition token (kv : string * value) : string :=
  String.append (fst kv) (String.append "=" (to_string (snd kv))).

(** One token per printable entry, in key order. *)
Definition tokens (resolved : obj) : list string :=
  map token (List.filter printable resolved).

(** The tokens space-joined, then trimmed. *)
Definition rendering (resolved : obj) : string :=
  Str.trim (Str.join " " (tokens resolved)).

(** What the [forEach] loop appends: every token followed by a space. *)
Fixpoint spaced (ts : list string) : string :=
  match ts with
  | [] => ""
  | t :: ts' => String.append t (String.append " " (spaced ts'))
  end.

End RenderSpec.

(** ** The pieces of a log call, as functions of the params object *)
Module LogSpec.

(** The object behind the [params] argument, if one was passed. *)
Definition params_object (w : world) (params : option loc) : option obj :=
  match params with
  | Some l => Some (deref w l)
  | None => None
  end.

(** [params?.error] *)
Definition raw_error (po : option obj) : value :=
  match po with
  | Some o => get o "error"
  | None => VUndefined
  end.

(** The call-specific params that reach the payload, given the resolved
    error value. *)
Definition remaining (po : option obj) (formattedError : value) : obj :=
  match po with
  | Some o =>
      if truthy formattedError
      then spread (spread [] (delete_key "error" o)) (own_enumerable formattedError)
      else o
  | None => []
  end.

(** [{level, msg}] *)
Definition base (type : LoggingLevelType) (message : string) : obj :=
  define "msg" (VStr (Sanitize.sanitizedMessage message))
    (define "level" (VStr (Str.toUpperCase (level_name type))) []).

(** The caller's heap once the backend event has been constructed. *)
Definition heap_after (w : world) (params : option loc) (formattedError : value)
  : gmap nat obj :=
  match params with
  | Some l =>
      if truthy formattedError && has_key "error" (deref w l)
      then <[l := delete_key "error" (deref w l)]> (heap w)
      else heap w
  | None => heap w
  end.

(** The send gate: unset means send. *)
Definition send_gate (props : LogifyPropsType) : bool :=
  match shouldSendLogsIf props with
  | Const b => b
  | Fn f => f tt
  | Unset => true
  end.

(** The normalizer returns on the [error] entry that the console rendering
    hands to it. *)
Definition rendering_returns (props : LogifyPropsType) (po : option obj) : bool :=
  match po, parseError props with
  | Some o, Some f =>
      if has_key "error" o
      then match f (get o "error") with Ok _ => true | Throw _ => false end
      else true
  | _, _ => true
  end.

(** One member of the JSON text. *)
Definition member_text (m : string * string) : string :=
  String.append (JSON.quote (fst m)) (String.append ":" (snd m)).

(** The body shared by [info], [warn], [error] and [fatal]. *)
Definition leveled (props : LogifyPropsType) (fetch_throws : request -> option nat)
  (type : LoggingLevelType) (message : string) (params : option nat) : M unit :=
  bind (params_lines props params) (fun lines =>
  bind (if _shouldLogToConsole props
        then console_log (map CStr (_constructStyledConsoleLogMessage props type message lines))
        else ret tt) (fun _ =>
  bind (_constructBackendLogEvent props type message params) (fun ev =>
  _sendLogToGrafana props fetch_throws (jsonLog ev)))).

End LogSpec.

(** ** Concrete loggers and worlds used in the examples *)

Module Fixtures.

(** A transport that starts every request. *)
Definition transport_ok : request -> option nat := fun _ => None.

Definition props_with
  (defaults : setting obj (unit -> obj))
  (parse : option (value -> outcome value))
  (send : setting bool (unit -> bool)) : LogifyPropsType :=
  {| endpoint := "https://logs.example/ingest";
     defaultParams := defaults;
     parseError := parse;
     shouldSendLogsIf := send;
     shouldLogToConsole := Unset;
     printColors := None |}.

(** Only the endpoint is configured. *)
Definition plain : LogifyPropsType := props_with Unset None Unset.

(** The console gate is closed and the send gate is open. *)
Definition muted : LogifyPropsType :=
  {| endpoint := "https://logs.example/ingest";
     defaultParams := Unset;
     parseError := None;
     shouldSendLogsIf := Const true;
     shouldLogToConsole := Const false;
     printColors := None |}.

(** A normalizer that throws the error object at reference 9. *)
Definition throwing : LogifyPropsType :=
  props_with Unset (Some (fun _ => Throw 9%nat)) Unset.

(** A normalizer that returns [undefined]. *)
Definition declining : LogifyPropsType :=
  props_with Unset (Some (fun _ => Ok VUndefined)) Unset.

(** A normalizer that returns [{code: 500, detail: 'x'}]. *)
Definition http_error : value := VObj [("code", VNum 500); ("detail", VStr "x")].

Definition normalizing (defaults : setting obj (unit -> obj)) : LogifyPropsType :=
  props_with defaults (Some (fun _ => Ok http_error)) Unset.

(** The caller holds one object, at reference 1; nothing was logged yet. *)
Definition world_with (o : obj) : world :=
  {| heap := {[ 1%nat := o ]}; console := []; network := [];
     rejected := []; clock := 0 |}.

End Fixtures.

(** ** Notions used by the further properties *)

Module MessageClasses.

(** No character of the message is punctuation. *)
Definition no_punct (s : chars) : bool := forallb (fun c => negb (punct c)) s.

(** Every character of the message is punctuation or whitespace. *)
Definition no_word (s : chars) : bool := forallb (fun c => punct c || space c) s.

End MessageClasses.

Module CallSpec.


(** The guarded [fetch] of [_sendLogToGrafana]. *)
Definition guarded_fetch (props : LogifyPropsType) (fetch_throws : request -> option nat)
  (log : string) : M unit :=
  try_catch (fetch fetch_throws (post props log))
    (fun e => debug props "error sending log" (Some e)).

(** The upper-case level tag of each method. *)
Definition level_tag (type : LoggingLevelType) : string :=
  match type with
  | LDebug => "DEBUG"
  | LInfo => "INFO"
  | LWarn => "WARN"
  | LError => "ERROR"
  | LFatal => "FATAL"
  end.

(** Every space replaced by a line feed. *)
Fixpoint newline_for_space (s : string) : string :=
  match s with
  | EmptyString => EmptyString
  | String c s' =>
      String (if Ascii.eqb c " " then ascii_of_nat 10 else c) (newline_for_space s')
  end.

End CallSpec.

Import SanitizeSpec ObjSpec RenderSpec LogSpec.
Import MessageClasses CallSpec.

(** * Sanitisation: the regex and its replacement *)

Lemma punct_not_space c : punct c = true -> space c = false.
Proof. destruct c as [[] [] [] [] [] [] [] []]; vm_compute; congruence. Qed.

Lemma lower_punct c : punct (toLowerCase1 c) = punct c.
Proof. destruct c as [[] [] [] [] [] [] [] []]; reflexivity. Qed.

Lemma lower_space c : space (toLowerCase1 c) = space c.
Proof. destruct c as [[] [] [] [] [] [] [] []]; reflexivity. Qed.

Lemma lower_lower c : toLowerCase1 (toLowerCase1 c) = toLowerCase1 c.
Proof. destruct c as [[] [] [] [] [] [] [] []]; reflexivity. Qed.

Lemma plus_alt1 s n :
  plus punct s n k_alt1 =
  match run s with 0 => None | S m => k_alt1 (skipn (S m) s) (n + S m) end.
Proof.
  revert n. induction s as [|c s IH]; intros n; simpl; [reflexivity|].
  destruct (punct c) eqn:Hc; [|reflexivity].
  rewrite IH. destruct (run s) as [|m] eqn:Hr.
  - simpl. replace (n + 1) with (S n) by lia. reflexivity.
  - replace (S n + S m) with (n + S (S m)) by lia.
    destruct (k_alt1 (skipn (S m) s) (n + S (S m))) eqn:Hk; simpl; [reflexivity|].
    destruct s as [|c' s']; [discriminate|]. simpl in Hr.
    destruct (punct c') eqn:Hc'; [|discriminate].
    unfold k_alt1. rewrite (punct_not_space _ Hc'). reflexivity.
Qed.

Lemma plus_accept s n :
  plus punct s n (fun _ m => Some m) =
  match run s with 0 => None | S m => Some (n + S m) end.
Proof.
  revert n. induction s as [|c s IH]; intros n; simpl; [reflexivity|].
  destruct (punct c); [|reflexivity].
  rewrite IH. destruct (run s) as [|m]; simpl.
  - f_equal. lia.
  - f_equal. lia.
Qed.

Lemma match_here_message bol s :
  match_here message_regex bol s = orelse (alt1 s) (alt2 bol s).
Proof.
  unfold match_here, message_regex. cbn [exec].
  change (fun (s' : chars) (n' : nat) =>
            orelse match s' with
                   | [] => None
                   | c :: s'0 => if space c then Some (S n') else None
                   end
                   match s' with [] => Some n' | _ :: _ => None end)
    with k_alt1.
  rewrite plus_alt1. f_equal.
  - unfold alt1. destruct (run s) as [|m]; [reflexivity|].
    unfold k_alt1. simpl (0 + S m).
    destruct (skipn (S m) s) as [|c r]; [reflexivity|].
    destruct (space c); reflexivity.
  - unfold alt2. f_equal.
    + destruct bol; [|reflexivity]. rewrite plus_accept. reflexivity.
    + destruct s as [|c s']; [reflexivity|].
      destruct (space c); [|reflexivity].
      rewrite plus_accept. reflexivity.
Qed.

Lemma alt1_pos s m : alt1 s = Some m -> exists j, m = S j.
Proof.
  unfold alt1. destruct (run s); [discriminate|].
  destruct (skipn _ s) as [|c r]; [|destruct (space c)]; intros [= <-]; eauto.
Qed.

Lemma alt2_pos bol s m : alt2 bol s = Some m -> exists j, m = S j.
Proof.
  unfold alt2, orelse. destruct bol.
  - destruct (run s) as [|j]; [|intros [= <-]; eauto].
    destruct s as [|c s']; [discriminate|].
    destruct (space c); [|discriminate].
    destruct (run s'); [discriminate|intros [= <-]; eauto].
  - destruct s as [|c s']; [discriminate|].
    destruct (space c); [|discriminate].
    destruct (run s'); [discriminate|intros [= <-]; eauto].
Qed.

Lemma match_pos bol s m :
  orelse (alt1 s) (alt2 bol s) = Some m -> exists j, m = S j.
Proof.
  unfold orelse. destruct (alt1 s) eqn:H1.
  - intros [= <-]. eapply alt1_pos; eauto.
  - apply alt2_pos.
Qed.

Lemma match_nil bol : orelse (alt1 []) (alt2 bol []) = None.
Proof. destruct bol; reflexivity. Qed.

(** A pending skip of [j] characters resumes the scan [j] characters on. *)
Lemma replace_skip j s :
  replace_from message_regex [" "%char] false j s = scan false (skipn j s).
Proof.
  revert j. induction s as [|c s IH]; intros j.
  - destruct j; reflexivity.
  - destruct j as [|j]; [reflexivity|]. simpl. apply IH.
Qed.

Lemma scan_nil bol : scan bol [] = [].
Proof. unfold scan. simpl. rewrite match_here_message, match_nil. reflexivity. Qed.

Lemma scan_cons bol c s :
  scan bol (c :: s) =
  match orelse (alt1 (c :: s)) (alt2 bol (c :: s)) with
  | Some m => " "%char :: scan false (skipn m (c :: s))
  | None => c :: scan false s
  end.
Proof.
  unfold scan at 1. cbn [replace_from]. rewrite match_here_message.
  destruct (orelse _ _) as [m|] eqn:Hm; [|reflexivity].
  destruct (match_pos _ _ _ Hm) as [j ->].
  rewrite replace_skip. reflexivity.
Qed.

Lemma run_punct c s : punct c = true -> run (c :: s) = S (run s).
Proof. intros H. simpl. rewrite H. reflexivity. Qed.

Lemma run_other c s : punct c = false -> run (c :: s) = 0.
Proof. intros H. simpl. rewrite H. reflexivity. Qed.

Lemma run_after_run s : run (skipn (run s) s) = 0.
Proof.
  induction s as [|c s IH]; [reflexivity|]. simpl.
  destruct (punct c) eqn:Hc; simpl; [exact IH|]. rewrite Hc. reflexivity.
Qed.

Lemma alt1_other c s : punct c = false -> alt1 (c :: s) = None.
Proof. intros H. unfold alt1. rewrite run_other by assumption. reflexivity. Qed.

Lemma alt1_punct c s :
  punct c = true ->
  alt1 (c :: s) =
  match skipn (run s) s with
  | [] => Some (S (run s))
  | c' :: _ => if space c' then Some (S (S (run s))) else None
  end.
Proof. intros H. unfold alt1. rewrite run_punct by assumption. reflexivity. Qed.

Lemma alt2_word bol c s :
  punct c = false -> space c = false -> alt2 bol (c :: s) = None.
Proof.
  intros Hp Hs. unfold alt2. rewrite run_other by assumption. rewrite Hs.
  destruct bol; reflexivity.
Qed.

Lemma alt2_space bol c s :
  space c = true ->
  alt2 bol (c :: s) = match run s with 0 => None | S m => Some (S (S m)) end.
Proof.
  intros Hs. unfold alt2.
  assert (Hp : punct c = false).
  { destruct (punct c) eqn:Hp; [|reflexivity].
    apply punct_not_space in Hp. congruence. }
  rewrite run_other by assumption. rewrite Hs. destruct bol; reflexivity.
Qed.

Lemma alt2_punct bol c s :
  punct c = true ->
  alt2 bol (c :: s) = if bol then Some (S (run s)) else None.
Proof.
  intros Hp. unfold alt2. rewrite run_punct by assumption.
  rewrite (punct_not_space _ Hp). destruct bol; reflexivity.
Qed.

Lemma alt1_tail_word c s :
  punct c = true -> tail_word s = true -> alt1 (c :: s) = None.
Proof.
  intros Hp Ht. rewrite alt1_punct by assumption. unfold tail_word in Ht.
  destruct (skipn (run s) s) as [|c' r]; [discriminate|].
  apply andb_true_iff in Ht as [_ Hs]. apply negb_true_iff in Hs.
  rewrite Hs. reflexivity.
Qed.

Lemma tail_word_punct c s : punct c = true -> tail_word (c :: s) = tail_word s.
Proof. intros H. unfold tail_word. rewrite run_punct by assumption. reflexivity. Qed.

Lemma settled_tail_word s : settled Punct s = true -> tail_word s = true.
Proof.
  induction s as [|c s IH]; simpl; [discriminate|].
  destruct (punct c) eqn:Hp.
  - intros H. rewrite tail_word_punct by assumption. apply IH. exact H.
  - destruct (space c) eqn:Hs; [discriminate|].
    intros _. unfold tail_word. rewrite run_other by assumption. simpl.
    rewrite Hp, Hs. reflexivity.
Qed.

(** A settled string is left as it is by the replacement. *)
Lemma scan_settled_id p bol t :
  (bol = true -> p = Gap) -> settled p t = true -> scan bol t = t.
Proof.
  revert p bol. induction t as [|c t IH]; intros p bol Hbol Hst.
  - apply scan_nil.
  - rewrite scan_cons. simpl in Hst.
    destruct (punct c) eqn:Hp.
    + apply andb_true_iff in Hst as [Hg Hst].
      assert (bol = false) as ->.
      { destruct bol; [|reflexivity]. rewrite Hbol in Hg by reflexivity. discriminate. }
      rewrite alt1_tail_word by auto using settled_tail_word.
      rewrite alt2_punct by assumption. simpl.
      f_equal. apply (IH Punct); [discriminate|assumption].
    + rewrite alt1_other by assumption. simpl.
      destruct (space c) eqn:Hs.
      * apply andb_true_iff in Hst as [_ Hst].
        rewrite alt2_space by assumption.
        destruct t as [|c' t'].
        -- simpl. rewrite scan_nil. reflexivity.
        -- simpl in Hst. destruct (punct c') eqn:Hp'; [discriminate|].
           rewrite run_other by assumption.
           f_equal. apply (IH Gap); [discriminate|]. simpl. rewrite Hp'. exact Hst.
      * rewrite alt2_word by assumption.
        f_equal. apply (IH Word); [discriminate|assumption].
Qed.

Lemma no_psp_tail a t :
  no_punct_space_punct (a :: t) = true -> no_punct_space_punct t = true.
Proof. simpl. intros H. apply andb_true_iff in H as [_ H]. exact H. Qed.

Lemma no_psp_skipn k s :
  no_punct_space_punct s = true -> no_punct_space_punct (skipn k s) = true.
Proof.
  revert s. induction k as [|k IH]; intros s H; [exact H|].
  destruct s as [|a t]; [reflexivity|]. simpl. apply IH. eapply no_psp_tail; eauto.
Qed.

(** After a run that is followed by whitespace, no run starts again. *)
Lemma no_psp_after_run c s c' r :
  punct c = true -> no_punct_space_punct (c :: s) = true ->
  skipn (run s) s = c' :: r -> space c' = true -> run r = 0.
Proof.
  revert c. induction s as [|c2 s IH]; intros c Hp Hn Hs Hsp; [discriminate|].
  simpl in Hs. destruct (punct c2) eqn:Hp2.
  - simpl in Hs. apply (IH c2); auto. eapply no_psp_tail; eauto.
  - simpl in Hs. injection Hs as -> ->.
    destruct r as [|c3 r']; [reflexivity|].
    simpl in Hn. rewrite Hp, Hsp in Hn. simpl in Hn.
    apply andb_true_iff in Hn as [Hn _]. apply negb_true_iff in Hn.
    simpl. rewrite Hn. reflexivity.
Qed.

Lemma settled_blank p t :
  in_run p = false -> settled p (" "%char :: t) = settled Gap t.
Proof. intros H. simpl. rewrite H. reflexivity. Qed.

Lemma skipn_S_of_cons {A} k (s : list A) x r : skipn k s = x :: r -> skipn (S k) s = r.
Proof.
  revert s. induction k as [|k IH]; intros s H.
  - change (s = x :: r) in H. subst s. reflexivity.
  - destruct s as [|y s]; [discriminate|]. apply (IH s). exact H.
Qed.

Lemma length_skipn_le {A} k (s : list A) : length (skipn k s) <= length s.
Proof. rewrite length_skipn. lia. Qed.

Lemma settled_copy_space p c t :
  punct c = false -> space c = true ->
  settled p (c :: t) = negb (in_run p) && settled Gap t.
Proof. intros Hp Hs. simpl. rewrite Hp, Hs. reflexivity. Qed.

Lemma settled_copy_word p c t :
  punct c = false -> space c = false -> settled p (c :: t) = settled Word t.
Proof. intros Hp Hs. simpl. rewrite Hp, Hs. reflexivity. Qed.

Lemma settled_copy_punct p c t :
  punct c = true -> settled p (c :: t) = negb (gap p) && settled Punct t.
Proof. intros Hp. simpl. rewrite Hp. reflexivity. Qed.

Lemma tail_word_space c s : space c = true -> tail_word (c :: s) = false.
Proof.
  intros Hs. unfold tail_word.
  destruct (punct c) eqn:Hp.
  - apply punct_not_space in Hp. congruence.
  - rewrite run_other by assumption. simpl. rewrite Hs.
    apply andb_false_r.
Qed.

(** The three situations the scan can be in, and what it produces in each
    on an input without punctuation-whitespace-punctuation. *)
Lemma scan_settles n s :
  length s <= n -> no_punct_space_punct s = true ->
  (forall bol, bol = true \/ run s = 0 -> settled Gap (scan bol s) = true) /\
  settled Word (scan false s) = true /\
  (tail_word s = true -> settled Punct (scan false s) = true).
Proof.
  revert s. induction n as [|n IH]; intros s Hlen Hn.
  { destruct s; [|simpl in Hlen; lia].
    repeat split; intros; rewrite ?scan_nil; try reflexivity. discriminate. }
  destruct s as [|c s'].
  { repeat split; intros; rewrite ?scan_nil; try reflexivity. discriminate. }
  simpl in Hlen.
  assert (Hn' : no_punct_space_punct s' = true) by (eapply no_psp_tail; eauto).
  assert (Hsuf : forall k X, skipn k s' = X -> run X = 0 ->
                   settled Gap (scan false X) = true).
  { intros k X <- HX.
    destruct (IH (skipn k s')) as [Ha _].
    - pose proof (length_skipn_le k s'). lia.
    - apply no_psp_skipn. exact Hn'.
    - apply Ha. right. exact HX. }
  destruct (IH s' ltac:(lia) Hn') as (IHa & IHb & IHc).
  destruct (punct c) eqn:Hp.
  - (* a run starts at [c] *)
    pose proof (alt1_punct c s' Hp) as H1.
    pose proof (run_after_run s') as Hrun.
    destruct (skipn (run s') s') as [|c' r] eqn:Hs.
    + (* the run reaches the end of the string *)
      assert (Hscan : forall bol, scan bol (c :: s') = [" "%char]).
      { intros bol. rewrite scan_cons, H1. simpl orelse. cbv iota.
        change (skipn (S (run s')) (c :: s')) with (skipn (run s') s').
        rewrite Hs, scan_nil. reflexivity. }
      repeat split; intros; rewrite ?Hscan; try reflexivity.
      rewrite tail_word_punct in H by assumption.
      unfold tail_word in H. rewrite Hs in H. discriminate.
    + destruct (space c') eqn:Hs'.
      * (* the run is followed by whitespace *)
        assert (Hr : run r = 0) by (eapply no_psp_after_run; eauto).
        assert (Hscan : forall bol, scan bol (c :: s') = " "%char :: scan false r).
        { intros bol. rewrite scan_cons, H1. simpl orelse. cbv iota.
          change (skipn (S (S (run s'))) (c :: s')) with (skipn (S (run s')) s').
          rewrite (skipn_S_of_cons _ _ _ _ Hs). reflexivity. }
        assert (Hg : settled Gap (scan false r) = true).
        { apply (Hsuf (S (run s'))); [|exact Hr].
          eapply skipn_S_of_cons; eauto. }
        repeat split; intros; rewrite ?Hscan.
        -- rewrite settled_blank by reflexivity. exact Hg.
        -- rewrite settled_blank by reflexivity. exact Hg.
        -- rewrite tail_word_punct in H by assumption.
           unfold tail_word in H. rewrite Hs, Hs' in H.
           rewrite andb_false_r in H. discriminate.
      * (* the run is followed by a word character *)
        simpl in Hrun. destruct (punct c') eqn:Hp'; [discriminate|].
        assert (Htw : tail_word s' = true).
        { unfold tail_word. rewrite Hs, Hp', Hs'. reflexivity. }
        repeat split.
        -- intros bol [-> | Hr0]; [|rewrite run_punct in Hr0 by assumption; discriminate].
           rewrite scan_cons, H1, alt2_punct by assumption. simpl orelse. cbv iota.
           change (skipn (S (run s')) (c :: s')) with (skipn (run s') s').
           rewrite Hs. rewrite settled_blank by reflexivity.
           apply (Hsuf (run s')); [exact Hs|]. apply run_other. exact Hp'.
        -- rewrite scan_cons, H1, alt2_punct by assumption. simpl orelse. cbv iota.
           rewrite settled_copy_punct by assumption. apply IHc. exact Htw.
        -- intros _.
           rewrite scan_cons, H1, alt2_punct by assumption. simpl orelse. cbv iota.
           rewrite settled_copy_punct by assumption. apply IHc. exact Htw.
  - pose proof (alt1_other c s' Hp) as H1.
    destruct (space c) eqn:Hsp.
    + (* whitespace: the second alternative may take it with a following run *)
      destruct (run s') as [|m] eqn:Hr.
      * assert (Hscan : forall bol, scan bol (c :: s') = c :: scan false s').
        { intros bol. rewrite scan_cons, H1, alt2_space, Hr by assumption.
          reflexivity. }
        assert (Hg : settled Gap (scan false s') = true).
        { apply IHa. right. reflexivity. }
        repeat split; intros; rewrite ?Hscan.
        -- rewrite settled_copy_space by assumption. exact Hg.
        -- rewrite settled_copy_space by assumption. exact Hg.
        -- rewrite tail_word_space in H by assumption. discriminate.
      * assert (Hscan : forall bol,
                   scan bol (c :: s') = " "%char :: scan false (skipn (S m) s')).
        { intros bol. rewrite scan_cons, H1, alt2_space, Hr by assumption.
          reflexivity. }
        assert (Hg : settled Gap (scan false (skipn (S m) s')) = true).
        { apply (Hsuf (S m)); [reflexivity|]. rewrite <- Hr. apply run_after_run. }
        repeat split; intros; rewrite ?Hscan.
        -- rewrite settled_blank by reflexivity. exact Hg.
        -- rewrite settled_blank by reflexivity. exact Hg.
        -- rewrite tail_word_space in H by assumption. discriminate.
    + (* a word character is copied *)
      assert (Hscan : forall bol, scan bol (c :: s') = c :: scan false s').
      { intros bol. rewrite scan_cons, H1, alt2_word by assumption. reflexivity. }
      repeat split; intros; rewrite ?Hscan;
        rewrite settled_copy_word by assumption; exact IHb.
Qed.

Lemma replace_all_settled s :
  no_punct_space_punct s = true ->
  settled Gap (replace_all message_regex [" "%char] s) = true.
Proof.
  intros H. destruct (scan_settles (length s) s (le_n _) H) as [Ha _].
  apply (Ha true). left. reflexivity.
Qed.

(** *** Trimming and lowercasing *)

Lemma settled_toLowerCase p t : settled p (toLowerCase t) = settled p t.
Proof.
  revert p. induction t as [|c t IH]; intros p; [reflexivity|].
  simpl. rewrite lower_punct, lower_space, !IH. reflexivity.
Qed.

Lemma settled_trimStart t : settled Gap t = true -> settled Gap (trimStart t) = true.
Proof.
  induction t as [|c t IH]; intros H; [reflexivity|].
  simpl. destruct (space c) eqn:Hs; [|exact H].
  apply IH. simpl in H. rewrite Hs in H.
  destruct (punct c); [discriminate|exact H].
Qed.

Lemma settled_trimEnd p t : settled p t = true -> settled p (trimEnd t) = true.
Proof.
  revert p. induction t as [|c t IH]; intros p H; [exact H|].
  simpl in *. destruct (punct c) eqn:Hp.
  - apply andb_true_iff in H as [Hg H]. apply IH in H.
    destruct (trimEnd t) as [|c' r]; [discriminate|].
    cbn [settled]. rewrite Hp, Hg. exact H.
  - destruct (space c) eqn:Hs.
    + apply andb_true_iff in H as [Hg H]. apply IH in H.
      destruct (trimEnd t) as [|c' r]; [exact Hg|].
      cbn [settled]. rewrite Hp, Hs, Hg. exact H.
    + apply IH in H.
      destruct (trimEnd t) as [|c' r].
      * simpl. rewrite Hp, Hs. reflexivity.
      * cbn [settled]. rewrite Hp, Hs. exact H.
Qed.

Lemma trimStart_toLowerCase t :
  trimStart (toLowerCase t) = toLowerCase (trimStart t).
Proof.
  induction t as [|c t IH]; [reflexivity|].
  simpl. rewrite lower_space. destruct (space c); [exact IH|reflexivity].
Qed.

Lemma trimEnd_toLowerCase t :
  trimEnd (toLowerCase t) = toLowerCase (trimEnd t).
Proof.
  induction t as [|c t IH]; [reflexivity|].
  simpl. rewrite IH, lower_space.
  destruct (trimEnd t) as [|c' r]; simpl.
  - destruct (space c); reflexivity.
  - reflexivity.
Qed.

Lemma trim_toLowerCase t : trim (toLowerCase t) = toLowerCase (trim t).
Proof. unfold trim. rewrite trimStart_toLowerCase, trimEnd_toLowerCase. reflexivity. Qed.

Lemma toLowerCase_idem t : toLowerCase (toLowerCase t) = toLowerCase t.
Proof.
  induction t as [|c t IH]; [reflexivity|].
  simpl. rewrite lower_lower. f_equal. exact IH.
Qed.

Lemma trimStart_clean t : starts_clean (trimStart t) = true.
Proof.
  induction t as [|c t IH]; [reflexivity|].
  simpl. destruct (space c) eqn:Hs; [exact IH|]. simpl. rewrite Hs. reflexivity.
Qed.

Lemma trimStart_id t : starts_clean t = true -> trimStart t = t.
Proof.
  destruct t as [|c t]; [reflexivity|]. simpl. intros H.
  apply negb_true_iff in H. rewrite H. reflexivity.
Qed.

Lemma trimEnd_clean t : starts_clean t = true -> starts_clean (trimEnd t) = true.
Proof.
  destruct t as [|c t]; [reflexivity|]. simpl. intros H.
  apply negb_true_iff in H. rewrite H.
  destruct (trimEnd t); simpl; rewrite H; reflexivity.
Qed.

Lemma trimEnd_idem t : trimEnd (trimEnd t) = trimEnd t.
Proof.
  induction t as [|c t IH]; [reflexivity|].
  simpl. destruct (trimEnd t) as [|c' r] eqn:E.
  - destruct (space c) eqn:Hs; [reflexivity|]. simpl. rewrite Hs. reflexivity.
  - change (trimEnd (c :: c' :: r)) with
      (match trimEnd (c' :: r) with [] => if space c then [] else [c] | x => c :: x end).
    rewrite IH. reflexivity.
Qed.

Lemma trim_idem t : trim (trim t) = trim t.
Proof.
  unfold trim.
  rewrite (trimStart_id (trimEnd (trimStart t))).
  - apply trimEnd_idem.
  - apply trimEnd_clean, trimStart_clean.
Qed.

Lemma sanitize_chars_settled s :
  no_punct_space_punct s = true -> settled Gap (sanitize_chars s) = true.
Proof.
  intros H. unfold sanitize_chars, trim.
  rewrite settled_toLowerCase.
  apply settled_trimEnd, settled_trimStart, replace_all_settled, H.
Qed.


(** * Objects: reading after [define], spread and [delete] *)

Lemma lookup_replace_value k k' v o :
  has_key k' o = true ->
  lookup_key k (replace_value k' v o) =
  if String.eqb k k' then Some v else lookup_key k o.
Proof.
  unfold has_key. induction o as [|[k0 v0] o IH]; simpl; [discriminate|].
  destruct (String.eqb k' k0) eqn:E0.
  - intros _. apply String.eqb_eq in E0. subst k0. simpl.
    destruct (String.eqb k k'); reflexivity.
  - intros H. simpl. destruct (String.eqb k k0) eqn:E1.
    + apply String.eqb_eq in E1. subst k0.
      rewrite String.eqb_sym, E0. reflexivity.
    + apply IH. exact H.
Qed.

Lemma lookup_insert_index n k k' v o :
  has_key k' o = false ->
  lookup_key k (insert_index n k' v o) =
  if String.eqb k k' then Some v else lookup_key k o.
Proof.
  unfold has_key. induction o as [|[k0 v0] o IH]; simpl.
  - intros _. destruct (String.eqb k k'); reflexivity.
  - destruct (String.eqb k' k0) eqn:E0; [discriminate|]. intros H.
    assert (Hstep : lookup_key k ((k', v) :: (k0, v0) :: o) =
                    if String.eqb k k' then Some v
                    else if String.eqb k k0 then Some v0 else lookup_key k o)
      by reflexivity.
    destruct (array_index k0) as [n'|]; [|exact Hstep].
    destruct (n' <? n)%N; [|exact Hstep].
    simpl. destruct (String.eqb k k0) eqn:E1.
    + apply String.eqb_eq in E1. subst k0.
      rewrite String.eqb_sym, E0. reflexivity.
    + apply IH. exact H.
Qed.

Lemma lookup_app_one k k' v o :
  lookup_key k (o ++ [(k', v)]) =
  match lookup_key k o with
  | Some x => Some x
  | None => if String.eqb k k' then Some v else None
  end.
Proof.
  induction o as [|[k0 v0] o IH]; simpl; [reflexivity|].
  destruct (String.eqb k k0); [reflexivity|exact IH].
Qed.

(** Reading a property of an object literal after one more property was
    defined on it. *)
Lemma lookup_define k k' v o :
  lookup_key k (define k' v o) =
  if String.eqb k k' then Some v else lookup_key k o.
Proof.
  unfold define. destruct (has_key k' o) eqn:Hk.
  - apply lookup_replace_value. exact Hk.
  - destruct (array_index k') as [n|].
    + apply lookup_insert_index. exact Hk.
    + rewrite lookup_app_one. destruct (String.eqb k k') eqn:E.
      * apply String.eqb_eq in E. subst k'. unfold has_key in Hk.
        destruct (lookup_key k o); [discriminate|reflexivity].
      * destruct (lookup_key k o); reflexivity.
Qed.

Lemma lookup_spread_last k target source :
  lookup_key k (spread target source) =
  match last_value k source with
  | Some v => Some v
  | None => lookup_key k target
  end.
Proof.
  unfold spread, last_value. revert target.
  induction source as [|[k' v] s IH]; intros target; [reflexivity|].
  simpl. rewrite IH, lookup_app_one, lookup_define.
  destruct (lookup_key k (rev s)); [reflexivity|].
  destruct (String.eqb k k'); reflexivity.
Qed.

Lemma lookup_app k o1 o2 :
  lookup_key k (o1 ++ o2) =
  match lookup_key k o1 with Some v => Some v | None => lookup_key k o2 end.
Proof.
  induction o1 as [|[k0 v0] o IH]; simpl; [reflexivity|].
  destruct (String.eqb k k0); [reflexivity|exact IH].
Qed.

Lemma last_value_unique k o :
  unique_keys o = true -> last_value k o = lookup_key k o.
Proof.
  unfold last_value. induction o as [|[k0 v0] o IH]; [reflexivity|].
  simpl. intros H. apply andb_true_iff in H as [Hk Hu].
  rewrite lookup_app, IH by assumption. simpl.
  destruct (String.eqb k k0) eqn:E.
  - apply String.eqb_eq in E. subst k0. apply negb_true_iff in Hk.
    unfold has_key in Hk. destruct (lookup_key k o); [discriminate|reflexivity].
  - destruct (lookup_key k o); reflexivity.
Qed.

(** [{...target, ...source}]: the source wins on the keys it has. *)
Lemma lookup_spread k target source :
  unique_keys source = true ->
  lookup_key k (spread target source) =
  match lookup_key k source with
  | Some v => Some v
  | None => lookup_key k target
  end.
Proof.
  intros H. rewrite lookup_spread_last, last_value_unique by assumption. reflexivity.
Qed.

Lemma lookup_delete_key k k' o :
  lookup_key k (delete_key k' o) =
  if String.eqb k k' then None else lookup_key k o.
Proof.
  unfold delete_key. induction o as [|[k0 v0] o IH]; simpl.
  - destruct (String.eqb k k'); reflexivity.
  - destruct (String.eqb k' k0) eqn:E0; simpl.
    + apply String.eqb_eq in E0. subst k0. rewrite IH.
      destruct (String.eqb k k'); reflexivity.
    + rewrite IH. destruct (String.eqb k k0) eqn:E1; [|reflexivity].
      apply String.eqb_eq in E1. subst k0. rewrite String.eqb_sym, E0. reflexivity.
Qed.

Lemma lookup_In k v o : lookup_key k o = Some v -> In (k, v) o.
Proof.
  induction o as [|[k0 v0] o IH]; simpl; [discriminate|].
  destruct (String.eqb k k0) eqn:E.
  - apply String.eqb_eq in E. subst k0. intros [= ->]. left. reflexivity.
  - intros H. right. apply IH. exact H.
Qed.

Lemma lookup_None_keys k o : lookup_key k o = None -> ~ In k (Object_keys o).
Proof.
  induction o as [|[k0 v0] o IH]; simpl; [tauto|].
  destruct (String.eqb k k0) eqn:E; [discriminate|].
  apply String.eqb_neq in E. intros H [Hk|Hk]; [congruence|]. apply IH; assumption.
Qed.

Lemma has_key_In k o : has_key k o = true -> In k (Object_keys o).
Proof.
  unfold has_key. destruct (lookup_key k o) as [v|] eqn:E; [|discriminate].
  intros _. apply lookup_In in E. apply (in_map fst) in E. exact E.
Qed.

Lemma unique_lookup k v o :
  unique_keys o = true -> In (k, v) o -> lookup_key k o = Some v.
Proof.
  induction o as [|[k0 v0] o IH]; simpl; [tauto|].
  intros H. apply andb_true_iff in H as [Hk Hu]. intros [[= -> ->]|Hin].
  - rewrite String.eqb_refl. reflexivity.
  - destruct (String.eqb k k0) eqn:E; [|auto].
    apply String.eqb_eq in E. subst k0. apply negb_true_iff in Hk.
    unfold has_key in Hk. rewrite (IH Hu Hin) in Hk. discriminate.
Qed.

(** * The console rendering *)

Lemma append_cons x (a b : string) :
  String.append (String x a) b = String x (String.append a b).
Proof. reflexivity. Qed.

Lemma append_assoc (a b c : string) :
  String.append (String.append a b) c = String.append a (String.append b c).
Proof.
  induction a as [|x a IH]; [reflexivity|].
  rewrite !append_cons, IH. reflexivity.
Qed.

Lemma append_empty_r (a : string) : String.append a "" = a.
Proof.
  induction a as [|x a IH]; [reflexivity|].
  rewrite append_cons, IH. reflexivity.
Qed.

Lemma to_chars_append (a b : string) :
  Str.to_chars (String.append a b) = Str.to_chars a ++ Str.to_chars b.
Proof.
  unfold Str.to_chars. induction a as [|x a IH]; [reflexivity|].
  rewrite append_cons. simpl. rewrite IH. reflexivity.
Qed.

Lemma trimEnd_snoc_space y c :
  Chars.space c = true -> Chars.trimEnd (y ++ [c]) = Chars.trimEnd y.
Proof.
  intros Hc. induction y as [|a y IH]; simpl.
  - rewrite Hc. reflexivity.
  - rewrite IH. reflexivity.
Qed.

Lemma trim_snoc_space x c :
  Chars.space c = true -> Chars.trim (x ++ [c]) = Chars.trim x.
Proof.
  intros Hc. unfold Chars.trim. induction x as [|a x IH]; simpl.
  - rewrite Hc. reflexivity.
  - destruct (Chars.space a); [exact IH|].
    apply (trimEnd_snoc_space (a :: x) c Hc).
Qed.

Lemma Str_trim_space_r (s : string) : Str.trim (String.append s " ") = Str.trim s.
Proof.
  unfold Str.trim. rewrite to_chars_append.
  change (Str.to_chars " ") with [" "%char].
  rewrite trim_snoc_space by reflexivity. reflexivity.
Qed.

Lemma spaced_join ts :
  spaced ts = match ts with [] => "" | _ :: _ => String.append (Str.join " " ts) " " end.
Proof.
  induction ts as [|t ts IH]; [reflexivity|].
  simpl. rewrite IH. destruct ts as [|t' ts'].
  - simpl. reflexivity.
  - rewrite !append_assoc. reflexivity.
Qed.

Lemma trim_spaced ts : Str.trim (spaced ts) = Str.trim (Str.join " " ts).
Proof.
  rewrite spaced_join. destruct ts as [|t ts]; [reflexivity|].
  apply Str_trim_space_r.
Qed.

Lemma logString_step_resolve props o k v logString :
  lookup_key k o = Some v ->
  logString_step props o k logString =
  match resolve props (k, v) with
  | Throw e => Throw e
  | Ok r =>
      Ok (if printable (k, r)
          then String.append logString (String.append (token (k, r)) " ")
          else logString)
  end.
Proof.
  intros Hk. unfold logString_step, resolve, get. rewrite Hk. simpl.
  destruct (String.eqb k "error"); [destruct (parseError props) as [f|]|].
  - destruct (f v) as [r|e]; [|reflexivity].
    unfold printable, token. simpl.
    destruct (isString r || isNumber r); [|reflexivity].
    rewrite !append_assoc. reflexivity.
  - unfold printable, token. simpl.
    destruct (isString v || isNumber v); [|reflexivity].
    rewrite !append_assoc. reflexivity.
  - unfold printable, token. simpl.
    destruct (isString v || isNumber v); [|reflexivity].
    rewrite !append_assoc. reflexivity.
Qed.

Lemma forEach_entries props o entries logString :
  (forall k v, In (k, v) entries -> lookup_key k o = Some v) ->
  forEach props o (map fst entries) logString =
  match resolve_all props entries with
  | Throw e => Throw e
  | Ok r => Ok (String.append logString (spaced (tokens r)))
  end.
Proof.
  revert logString. induction entries as [|[k v] entries IH]; intros logString Hin.
  - simpl. rewrite append_empty_r. reflexivity.
  - simpl. rewrite (logString_step_resolve props o k v) by (apply Hin; left; reflexivity).
    destruct (resolve props (k, v)) as [r|e]; [|reflexivity].
    rewrite IH by (intros; apply Hin; right; assumption).
    destruct (resolve_all props entries) as [rs|e]; [|reflexivity].
    unfold tokens. simpl. destruct (printable (k, r)); simpl.
    + rewrite !append_assoc. reflexivity.
    + reflexivity.
Qed.

Lemma run_transform props l w :
  _transformObjectToLogString props (Some l) w =
  (match forEach props (deref w l) (Object_keys (deref w l)) "" with
   | Ok s => Ok (Str.trim s)
   | Throw e => Throw e
   end, w).
Proof.
  unfold _transformObjectToLogString, bind, read, lift, ret.
  destruct (forEach _ _ _ _); reflexivity.
Qed.

Lemma deref_lookup w l o : heap w !! l = Some o -> deref w l = o.
Proof. unfold deref. intros ->. reflexivity. Qed.

(** * The log methods *)

Lemma In_has_key k o : In k (Object_keys o) -> has_key k o = true.
Proof.
  unfold has_key. induction o as [|[k0 v0] o IH]; simpl; [tauto|].
  destruct (String.eqb k k0) eqn:E; [reflexivity|].
  apply String.eqb_neq in E. intros [H|H]; [congruence|]. apply IH. exact H.
Qed.

Lemma delete_key_absent k o : has_key k o = false -> delete_key k o = o.
Proof.
  unfold has_key, delete_key. induction o as [|[k0 v0] o IH]; simpl; [reflexivity|].
  destruct (String.eqb k k0); [discriminate|]. intros H. simpl. f_equal. apply IH. exact H.
Qed.

(** *** The console string *)

Lemma step_other props o key logString :
  String.eqb key "error" = false ->
  exists s, logString_step props o key logString = Ok s.
Proof.
  intros H. unfold logString_step. rewrite H.
  destruct (isString _ || isNumber _); eauto.
Qed.

Lemma forEach_throws props o f e keys logString :
  parseError props = Some f -> f (get o "error") = Throw e ->
  In "error" keys -> forEach props o keys logString = Throw e.
Proof.
  intros Hf He. revert logString.
  induction keys as [|key keys IH]; intros logString Hin; [destruct Hin|].
  simpl. destruct (String.eqb key "error") eqn:E.
  - apply String.eqb_eq in E. subst key.
    unfold logString_step. simpl. rewrite Hf, He. reflexivity.
  - destruct (step_other props o key logString E) as [s ->].
    apply IH. destruct Hin as [Hin|Hin]; [|exact Hin].
    subst key. discriminate.
Qed.

Lemma rendering_returns_spec props po :
  rendering_returns props po = true ->
  forall o f, po = Some o -> parseError props = Some f ->
    has_key "error" o = true -> exists v, f (get o "error") = Ok v.
Proof.
  intros H o f -> Hf Hk. unfold rendering_returns in H. rewrite Hf, Hk in H.
  destruct (f (get o "error")) as [v|e]; [eauto|discriminate].
Qed.

Lemma forEach_returns props o keys logString :
  rendering_returns props (Some o) = true ->
  (forall k, In k keys -> In k (Object_keys o)) ->
  exists s, forEach props o keys logString = Ok s.
Proof.
  intros Hr. revert logString.
  induction keys as [|key keys IH]; intros logString Hk; [simpl; eauto|].
  simpl.
  assert (exists s, logString_step props o key logString = Ok s) as [s ->].
  { destruct (String.eqb key "error") eqn:E; [|apply step_other; exact E].
    apply String.eqb_eq in E. subst key.
    unfold logString_step. simpl.
    destruct (parseError props) as [f|] eqn:Hf.
    - destruct (rendering_returns_spec _ _ Hr o f eq_refl Hf) as [v ->].
      + apply In_has_key, Hk. left. reflexivity.
      + destruct (isString v || isNumber v); eauto.
    - destruct (isString _ || isNumber _); eauto. }
  apply IH. intros k Hin. apply Hk. right. exact Hin.
Qed.

Lemma run_params_lines props params w :
  exists r, params_lines props params w = (r, w) /\
    (rendering_returns props (params_object w params) = true ->
     exists lines, r = Ok lines) /\
    (forall l f e, params = Some l -> parseError props = Some f ->
       has_key "error" (deref w l) = true ->
       f (get (deref w l) "error") = Throw e -> r = Throw e).
Proof.
  unfold params_lines, bind. destruct params as [l|].
  - rewrite run_transform.
    destruct (forEach props (deref w l) (Object_keys (deref w l)) "") as [s|e0] eqn:E.
    + eexists. split; [reflexivity|]. split; [eauto|].
      intros l' f e [= <-] Hf Hk He.
      rewrite (forEach_throws props _ f e) in E by auto using has_key_In. discriminate.
    + eexists. split; [reflexivity|]. split.
      * intros Hr. destruct (forEach_returns props (deref w l) (Object_keys (deref w l)) "" Hr)
          as [s Hs]; [auto|]. congruence.
      * intros l' f e [= <-] Hf Hk He.
        rewrite (forEach_throws props _ f e) in E by auto using has_key_In. congruence.
  - eexists. split; [reflexivity|]. split; [eauto|]. intros; discriminate.
Qed.

(** *** [debug] *)

Lemma run_debug props message params w :
  (exists lines,
     fst (params_lines props params w) = Ok lines /\
     debug props message params w =
     (Ok tt,
      push_console
        (map CStr (_constructStyledConsoleLogMessage props LDebug message lines)
           ++ [match params with Some l => CRef l | None => CStr "" end]) w)) \/
  (exists e,
     fst (params_lines props params w) = Throw e /\
     debug props message params w = (Throw e, w)).
Proof.
  destruct (run_params_lines props params w) as (r & Hr & _).
  unfold debug, bind. rewrite Hr. destruct r as [lines|e]; [left|right]; eauto.
Qed.

Lemma debug_frame props message params w :
  heap (snd (debug props message params w)) = heap w /\
  network (snd (debug props message params w)) = network w.
Proof.
  destruct (run_debug props message params w) as [(lines & _ & ->)|(e & _ & ->)];
    split; reflexivity.
Qed.

(** *** The backend event *)

Lemma deref_set_heap_eq h w l o : deref (set_heap (<[l := o]> h) w) l = o.
Proof. unfold deref, set_heap. simpl. rewrite lookup_insert_eq. reflexivity. Qed.

Lemma run_backendLogObject props type message params w parsed :
  parseError_opt props (raw_error (params_object w params)) = Ok parsed ->
  let fe := or_else parsed (raw_error (params_object w params)) in
  backendLogObject props type message params w =
  (Ok (spread (spread (base type message) (resolved_defaultParams props))
         (remaining (params_object w params) fe)),
   match params with
   | Some l =>
       if truthy fe && has_key "error" (deref w l)
       then set_heap (<[l := delete_key "error" (deref w l)]> (heap w)) w
       else w
   | None => w
   end).
Proof.
  intros Hp fe. unfold backendLogObject, bind, lift, ret, read.
  destruct params as [l|]; simpl in *.
  - rewrite Hp. fold fe. destruct (truthy fe) eqn:Ht; simpl; [|reflexivity].
    destruct (has_key "error" (deref w l)) eqn:Hk; simpl.
    + unfold write. rewrite deref_set_heap_eq. reflexivity.
    + rewrite (delete_key_absent _ _ Hk). reflexivity.
  - rewrite Hp. reflexivity.
Qed.

Lemma backendLogObject_throws props type message params w e :
  parseError_opt props (raw_error (params_object w params)) = Throw e ->
  backendLogObject props type message params w = (Throw e, w).
Proof.
  intros Hp. unfold backendLogObject, bind, lift, ret, read.
  destruct params as [l|]; simpl in *; rewrite Hp; reflexivity.
Qed.

(** *** Dispatch *)

Lemma run_fetch_guarded props fetch_throws log w :
  exists w',
    try_catch (fetch fetch_throws (post props log))
      (fun e => debug props "error sending log" (Some e)) w = 
    (fst (try_catch (fetch fetch_throws (post props log))
      (fun e => debug props "error sending log" (Some e)) w), w') /\
    heap w' = heap w /\ network w' = network w ++ [post props log].
Proof.
  unfold try_catch, fetch.
  destruct (fetch_throws (post props log)) as [e|].
  - destruct (debug_frame props "error sending log" (Some e)
                (push_request (post props log) w)) as [Hh Hn].
    destruct (debug props "error sending log" (Some e) _) as [r w'] eqn:E.
    exists w'. simpl in *. split; [reflexivity|]. split; assumption.
  - eexists. split; [reflexivity|]. split; reflexivity.
Qed.

Lemma run_send props fetch_throws log w :
  exists w',
    _sendLogToGrafana props fetch_throws log w = (Ok tt, w') /\
    heap w' = heap w /\
    network w' = network w ++ (if send_gate props then [post props log] else []).
Proof.
  destruct (run_fetch_guarded props fetch_throws log w) as (w1 & E & Hh & Hn).
  assert (Hsend : exists w',
             async (try_catch (fetch fetch_throws (post props log))
                      (fun e => debug props "error sending log" (Some e))) w
             = (Ok tt, w') /\ heap w' = heap w /\
             network w' = network w ++ [post props log]).
  { unfold async. rewrite E.
    destruct (fst _) as [[]|e]; eexists; (split; [reflexivity|]); split; assumption. }
  assert (Hskip : async (ret tt) w = (Ok tt, w)) by reflexivity.
  unfold _sendLogToGrafana, send_gate.
  destruct (shouldSendLogsIf props) as [|b|f]; simpl.
  - exact Hsend.
  - destruct b; [exact Hsend|]. rewrite Hskip, app_nil_r. eauto.
  - destruct (f tt); [exact Hsend|]. rewrite Hskip, app_nil_r. eauto.
Qed.

(** *** Uniqueness of keys is kept by object literals *)

Lemma has_key_replace_value k k' v o :
  has_key k (replace_value k' v o) = has_key k o.
Proof.
  unfold has_key. induction o as [|[k0 v0] o IH]; simpl; [reflexivity|].
  destruct (String.eqb k' k0) eqn:E0; simpl.
  - destruct (String.eqb k k0); reflexivity.
  - destruct (String.eqb k k0); [reflexivity|exact IH].
Qed.

Lemma unique_replace_value k v o :
  unique_keys o = true -> unique_keys (replace_value k v o) = true.
Proof.
  induction o as [|[k0 v0] o IH]; simpl; [reflexivity|].
  intros H. apply andb_true_iff in H as [Hk Hu].
  destruct (String.eqb k k0); simpl.
  - rewrite Hk, Hu. reflexivity.
  - rewrite has_key_replace_value, Hk. simpl. apply IH. exact Hu.
Qed.

Lemma has_key_insert_index n k k' v o :
  has_key k' o = false ->
  has_key k (insert_index n k' v o) = String.eqb k k' || has_key k o.
Proof.
  intros H. unfold has_key at 1. rewrite lookup_insert_index by assumption.
  unfold has_key. destruct (String.eqb k k'); reflexivity.
Qed.

Lemma has_key_cons k k0 v0 o :
  has_key k ((k0, v0) :: o) = String.eqb k k0 || has_key k o.
Proof. unfold has_key. simpl. destruct (String.eqb k k0); reflexivity. Qed.

Lemma unique_insert_index n k v o :
  has_key k o = false -> unique_keys o = true ->
  unique_keys (insert_index n k v o) = true.
Proof.
  induction o as [|[k0 v0] o IH]; intros Hk Hu; [reflexivity|].
  assert (Hfront : unique_keys ((k, v) :: (k0, v0) :: o) = true).
  { change (negb (has_key k ((k0, v0) :: o)) && unique_keys ((k0, v0) :: o) = true).
    rewrite Hk, Hu. reflexivity. }
  simpl. destruct (array_index k0) as [n'|]; [|exact Hfront].
  destruct (n' <? n)%N; [|exact Hfront].
  rewrite has_key_cons in Hk. apply orb_false_iff in Hk as [Hne Hk].
  simpl in Hu. apply andb_true_iff in Hu as [Hk0 Hu].
  simpl. rewrite has_key_insert_index by assumption.
  rewrite String.eqb_sym, Hne. simpl. rewrite Hk0. simpl. apply IH; assumption.
Qed.

Lemma has_key_app_one k k' v o :
  has_key k (o ++ [(k', v)]) = has_key k o || String.eqb k k'.
Proof.
  unfold has_key. rewrite lookup_app_one.
  destruct (lookup_key k o); [reflexivity|]. destruct (String.eqb k k'); reflexivity.
Qed.

Lemma unique_app_one k v o :
  has_key k o = false -> unique_keys o = true -> unique_keys (o ++ [(k, v)]) = true.
Proof.
  induction o as [|[k0 v0] o IH]; intros Hk Hu; [reflexivity|].
  rewrite has_key_cons in Hk. apply orb_false_iff in Hk as [Hne Hk].
  simpl in Hu. apply andb_true_iff in Hu as [Hk0 Hu].
  simpl. rewrite has_key_app_one, String.eqb_sym, Hne, orb_false_r, Hk0. simpl.
  apply IH; assumption.
Qed.

Lemma unique_define k v o : unique_keys o = true -> unique_keys (define k v o) = true.
Proof.
  intros Hu. unfold define. destruct (has_key k o) eqn:Hk.
  - apply unique_replace_value. exact Hu.
  - destruct (array_index k).
    + apply unique_insert_index; assumption.
    + apply unique_app_one; assumption.
Qed.

Lemma unique_spread target source :
  unique_keys target = true -> unique_keys (spread target source) = true.
Proof.
  unfold spread. revert target.
  induction source as [|[k v] s IH]; intros target Hu; [exact Hu|].
  simpl. apply IH, unique_define, Hu.
Qed.

Lemma lookup_rev_None k o : lookup_key k o = None -> last_value k o = None.
Proof.
  intros H. apply lookup_None_keys in H. unfold last_value.
  destruct (lookup_key k (rev o)) as [v|] eqn:E; [|reflexivity].
  exfalso. apply H. apply lookup_In in E. apply in_rev in E.
  apply (in_map fst) in E. exact E.
Qed.

(** [{...o}] of an object without the key has no such key. *)
Lemma lookup_copy_None k o : lookup_key k o = None -> lookup_key k (spread [] o) = None.
Proof.
  intros H. rewrite lookup_spread_last, (lookup_rev_None _ _ H). reflexivity.
Qed.

Lemma lookup_copy_deleted k o : lookup_key k (spread [] (delete_key k o)) = None.
Proof.
  apply lookup_copy_None. rewrite lookup_delete_key, String.eqb_refl. reflexivity.
Qed.

Lemma unique_remaining po fe :
  match po with Some o => unique_keys o = true | None => True end ->
  unique_keys (remaining po fe) = true.
Proof.
  unfold remaining. destruct po as [o|]; [|reflexivity].
  intros Hu. destruct (truthy fe); [|exact Hu].
  apply unique_spread, unique_spread. reflexivity.
Qed.

Lemma lookup_base_other k type message :
  String.eqb k "msg" = false -> String.eqb k "level" = false ->
  lookup_key k (base type message) = None.
Proof.
  intros H1 H2. unfold base. rewrite !lookup_define, H1, H2. reflexivity.
Qed.

(** *** JSON text and members *)

(** The JSON text of an object is made of its members, in order. *)
Lemma stringify_object_members o :
  JSON.stringify_object o =
  String.append "{"
    (String.append (Str.join "," (map member_text (JSON.members o))) "}").
Proof.
  unfold JSON.stringify_object, JSON.members. simpl. do 3 f_equal.
  induction o as [|[k v] o IH]; [reflexivity|].
  simpl. rewrite map_app, <- IH.
  destruct (JSON.stringify v); reflexivity.
Qed.

Lemma members_In k v text o :
  lookup_key k o = Some v -> JSON.stringify v = Some text ->
  In (k, text) (JSON.members o).
Proof.
  intros Hl Hs. apply lookup_In in Hl. unfold JSON.members.
  apply in_flat_map. exists (k, v). split; [exact Hl|]. simpl.
  rewrite Hs. left. reflexivity.
Qed.

Lemma members_keys k o :
  In k (map fst (JSON.members o)) -> In k (Object_keys o).
Proof.
  unfold JSON.members, Object_keys. intros H.
  apply in_map_iff in H as ([k' t] & Hk & Hin). simpl in Hk. subst k'.
  apply in_flat_map in Hin as ([k0 v0] & Hin & Hm). simpl in Hm.
  destruct (JSON.stringify v0); [|destruct Hm].
  destruct Hm as [[= -> <-]|[]]. apply (in_map fst) in Hin. exact Hin.
Qed.

Lemma members_absent k o :
  lookup_key k o = None -> ~ In k (map fst (JSON.members o)).
Proof. intros H Hin. apply (lookup_None_keys _ _ H). apply members_keys. exact Hin. Qed.

(** *** The levelled methods *)

Lemma log_leveled props fetch_throws type message params :
  type <> LDebug ->
  log props fetch_throws type message params = leveled props fetch_throws type message params.
Proof. destruct type; intros H; try reflexivity. contradiction. Qed.

Lemma parse_ok_rendering_returns props po parsed :
  parseError_opt props (raw_error po) = Ok parsed ->
  rendering_returns props po = true.
Proof.
  intros Hp. unfold rendering_returns, parseError_opt in *.
  destruct po as [o|]; [|reflexivity].
  destruct (parseError props) as [f|]; [|reflexivity].
  simpl in Hp. rewrite Hp. destruct (has_key "error" o); reflexivity.
Qed.

Lemma run_event props type message params w parsed :
  parseError_opt props (raw_error (params_object w params)) = Ok parsed ->
  let fe := or_else parsed (raw_error (params_object w params)) in
  exists w',
    _constructBackendLogEvent props type message params w =
    (Ok {| jsonLog :=
             JSON.stringify_object
               (spread (spread (base type message) (resolved_defaultParams props))
                  (remaining (params_object w params) fe));
           timestamp := clock w |}, w') /\
    heap w' = heap_after w params fe /\
    network w' = network w.
Proof.
  intros Hp fe. unfold _constructBackendLogEvent, bind.
  rewrite (run_backendLogObject props type message params w parsed Hp).
  fold fe. unfold heap_after, Date_now, ret.
  destruct params as [l|].
  - destruct (truthy fe && has_key "error" (deref w l));
      eexists; (split; [reflexivity|]); split; reflexivity.
  - eexists. split; [reflexivity|]. split; reflexivity.
Qed.

Lemma run_leveled props fetch_throws type message params w :
  type <> LDebug ->
  match parseError_opt props (raw_error (params_object w params)) with
  | Ok parsed =>
      let fe := or_else parsed (raw_error (params_object w params)) in
      exists w',
        log props fetch_throws type message params w = (Ok tt, w') /\
        heap w' = heap_after w params fe /\
        network w' =
        network w ++
          (if send_gate props
           then [post props
                   (JSON.stringify_object
                      (spread (spread (base type message) (resolved_defaultParams props))
                         (remaining (params_object w params) fe)))]
           else [])
  | Throw e =>
      exists w',
        log props fetch_throws type message params w = (Throw e, w') /\
        heap w' = heap w /\ network w' = network w
  end.
Proof.
  intros Ht. rewrite (log_leveled _ _ _ _ _ Ht). unfold leveled.
  destruct (run_params_lines props params w) as (r & Hr & Hok & Hthrow).
  destruct (parseError_opt props (raw_error (params_object w params)))
    as [parsed|e] eqn:Hp.
  - cbv zeta. set (fe := or_else parsed (raw_error (params_object w params))).
    destruct (Hok (parse_ok_rendering_returns _ _ _ Hp)) as [lines ->].
    unfold bind at 1. rewrite Hr. unfold bind at 1.
    set (w1 := snd ((if _shouldLogToConsole props
                     then console_log (map CStr (_constructStyledConsoleLogMessage
                                                   props type message lines))
                     else ret tt) w)).
    assert (Hc : (if _shouldLogToConsole props
                  then console_log (map CStr (_constructStyledConsoleLogMessage
                                                props type message lines))
                  else ret tt) w = (Ok tt, w1)).
    { unfold w1. destruct (_shouldLogToConsole props); reflexivity. }
    assert (Hw1 : heap w1 = heap w /\ network w1 = network w /\
                  params_object w1 params = params_object w params /\
                  heap_after w1 params fe = heap_after w params fe).
    { unfold w1. destruct (_shouldLogToConsole props); destruct params; repeat split. }
    destruct Hw1 as (Hh1 & Hn1 & Hpo & Hha).
    rewrite Hc. unfold bind.
    assert (Hp1 : parseError_opt props (raw_error (params_object w1 params)) = Ok parsed)
      by (rewrite Hpo; exact Hp).
    destruct (run_event props type message params w1 parsed Hp1) as (w2 & -> & Hh2 & Hn2).
    rewrite Hpo in *. fold fe in Hh2. fold fe.
    cbn [jsonLog].
    destruct (run_send props fetch_throws
                (JSON.stringify_object
                   (spread (spread (base type message) (resolved_defaultParams props))
                      (remaining (params_object w params) fe))) w2)
      as (w3 & -> & Hh3 & Hn3).
    exists w3. split; [reflexivity|]. split; [congruence|].
    rewrite Hn3, Hn2, Hn1. reflexivity.
  - destruct r as [lines|e'].
    + unfold bind at 1. rewrite Hr. unfold bind at 1.
      set (w1 := snd ((if _shouldLogToConsole props
                       then console_log (map CStr (_constructStyledConsoleLogMessage
                                                     props type message lines))
                       else ret tt) w)).
      assert (Hc : (if _shouldLogToConsole props
                    then console_log (map CStr (_constructStyledConsoleLogMessage
                                                  props type message lines))
                    else ret tt) w = (Ok tt, w1)).
      { unfold w1. destruct (_shouldLogToConsole props); reflexivity. }
      assert (Hw1 : heap w1 = heap w /\ network w1 = network w /\
                    params_object w1 params = params_object w params).
      { unfold w1. destruct (_shouldLogToConsole props); destruct params; repeat split. }
      destruct Hw1 as (Hh1 & Hn1 & Hpo).
      rewrite Hc. unfold bind at 1. unfold _constructBackendLogEvent. unfold bind at 1.
      rewrite backendLogObject_throws with (e := e) by (rewrite Hpo; exact Hp).
      exists w1. split; [reflexivity|]. split; assumption.
    + unfold bind. rewrite Hr.
      assert (e' = e) as ->.
      { destruct params as [l|].
        - simpl in Hp. unfold parseError_opt in Hp.
          destruct (parseError props) as [f|] eqn:Hf; [|discriminate].
          destruct (has_key "error" (deref w l)) eqn:Hk.
          + specialize (Hthrow l f e eq_refl eq_refl Hk Hp). congruence.
          + assert (Hret : rendering_returns props (params_object w (Some l)) = true).
            { unfold rendering_returns. simpl. rewrite Hf, Hk. reflexivity. }
            destruct (Hok Hret) as [lines Hl]. discriminate.
        - destruct (Hok eq_refl) as [lines Hl]. discriminate. }
      exists w. split; [reflexivity|]. split; reflexivity.
Qed.

(** * Worked examples *)

Example stringify_object_example :
  JSON.stringify_object
    [("level", VStr "INFO"); ("msg", VStr "user login"); ("userId", VNum 42)]
  = String.concat ""
      ["{"; JSON.quote "level"; ":"; JSON.quote "INFO"; ",";
       JSON.quote "msg"; ":"; JSON.quote "user login"; ",";
       JSON.quote "userId"; ":42}"].
Proof. vm_compute. reflexivity. Qed.

(** Spreading a string defines its characters under index keys, which an
    object enumerates before its other keys. *)
Example spread_string_example :
  Object_keys (spread [("level", VNull)] (own_enumerable (VStr "ab")))
  = ["0"; "1"; "level"].
Proof. vm_compute. reflexivity. Qed.

(** [info('user login', {userId: 42})] on a logger with only an endpoint:
    one console entry, one POST, and the params object untouched. *)
Example info_user_login :
  let w := Fixtures.world_with [("userId", VNum 42)] in
  let r := info Fixtures.plain Fixtures.transport_ok "user login" (Some 1%nat) w in
  (fst r = Ok tt) /\
  (List.length (console (snd r)) = 1%nat) /\
  (map body (network (snd r)) =
     [String.concat ""
        ["{"; JSON.quote "level"; ":"; JSON.quote "INFO"; ",";
         JSON.quote "msg"; ":"; JSON.quote "user login"; ",";
         JSON.quote "userId"; ":42}"]]) /\
  (map url (network (snd r)) = ["https://logs.example/ingest"]) /\
  (heap (snd r) = heap w).
Proof. vm_compute. repeat split. Qed.

(** * The claims *)

(** ** C5 and C6: message sanitisation *)

(** C5, as stated, fails: the sanitised form of the example message is not
    [user id5 loggedin]. *)
Lemma sanitize_example_not_stripped :
  sanitizedMessage "User (id=5) logged-in!" <> "user id5 loggedin".
Proof. vm_compute. discriminate. Qed.

(** C5, amended: punctuation is replaced only where a run touches
    whitespace or an end of the message, and [=] is not in the set, so the
    example message [User (id=5) logged-in!] is sanitised to
    [user id=5 logged-in]. *)
Theorem sanitize_example :
  sanitizedMessage "User (id=5) logged-in!" = "user id=5 logged-in".
Proof. vm_compute. reflexivity. Qed.




(** ** C1: a throwing normalizer *)

(** C1, as stated, fails: with a normalizer that throws, [info] on params
    with an [error] key throws to its caller. *)
Lemma parseError_throw_reaches_caller :
  info Fixtures.throwing Fixtures.transport_ok "x" (Some 1%nat)
    (Fixtures.world_with [("error", VStr "boom")])
  = (Throw 9%nat, Fixtures.world_with [("error", VStr "boom")]).
Proof. reflexivity. Qed.

(** C1, amended: for every log method, if params has an [error] key and
    [parseError] throws on its value, the exception is not caught: the log
    method throws it to its caller, having written nothing to the console,
    sent nothing, and left the params object as it was. *)
Theorem parseError_throw_propagates
  props fetch_throws type message l w f e :
  parseError props = Some f ->
  has_key "error" (deref w l) = true ->
  f (get (deref w l) "error") = Throw e ->
  log props fetch_throws type message (Some l) w = (Throw e, w).
Proof.
  intros Hf Hk He.
  destruct (run_params_lines props (Some l) w) as (r & Hr & _ & Hthrow).
  rewrite (Hthrow l f e eq_refl Hf Hk He) in Hr.
  destruct type; unfold log, debug, info, warn, error, fatal, bind;
    rewrite Hr; reflexivity.
Qed.

Lemma parseError_throw_propagates_witness :
  log Fixtures.throwing Fixtures.transport_ok LFatal "x" (Some 1%nat)
    (Fixtures.world_with [("a", VNum 1); ("error", VStr "boom")])
  = (Throw 9%nat, Fixtures.world_with [("a", VNum 1); ("error", VStr "boom")]).
Proof.
  apply (parseError_throw_propagates Fixtures.throwing Fixtures.transport_ok LFatal "x"
           1%nat (Fixtures.world_with [("a", VNum 1); ("error", VStr "boom")])
           (fun _ => Throw 9%nat) 9%nat); reflexivity.
Defined.

(** ** C2: [debug] *)

(** C2, as stated, fails: with a normalizer that throws, [debug] on params
    with an [error] key writes nothing to the console. *)
Lemma debug_silent_when_parseError_throws :
  let r := debug Fixtures.throwing "x" (Some 1%nat)
             (Fixtures.world_with [("error", VStr "boom")]) in
  fst r = Throw 9%nat /\ console (snd r) = [].
Proof. split; reflexivity. Qed.

(** C2, amended: for every message, params and configuration, [debug]
    never initiates a network send; and unless [parseError] throws on the
    [error] entry of params, it writes exactly one console entry (the styled
    message followed by the params), whatever the console gate says. *)
Theorem debug_console_only props message params w :
  network (snd (debug props message params w)) = network w /\
  (rendering_returns props (params_object w params) = true ->
   exists lines,
     fst (params_lines props params w) = Ok lines /\
     debug props message params w =
     (Ok tt,
      push_console
        (map CStr (_constructStyledConsoleLogMessage props LDebug message lines)
           ++ [match params with Some l => CRef l | None => CStr "" end]) w)).
Proof.
  split; [apply debug_frame|]. intros Hr.
  destruct (run_params_lines props params w) as (r & Hpl & Hok & _).
  destruct (Hok Hr) as [lines ->].
  exists lines. unfold debug, bind. rewrite Hpl. split; reflexivity.
Qed.

Lemma debug_console_only_witness :
  exists lines,
    fst (params_lines Fixtures.muted (Some 1%nat)
           (Fixtures.world_with [("a", VNum 1)])) = Ok lines /\
    debug Fixtures.muted "x" (Some 1%nat)
      (Fixtures.world_with [("a", VNum 1)]) =
    (Ok tt,
     push_console
       (map CStr (_constructStyledConsoleLogMessage
                    Fixtures.muted LDebug "x" lines)
          ++ [CRef 1%nat]) (Fixtures.world_with [("a", VNum 1)])).
Proof.
  apply (proj2 (debug_console_only Fixtures.muted "x"
                  (Some 1%nat) (Fixtures.world_with [("a", VNum 1)]))).
  reflexivity.
Defined.

(** ** C3: the send gate *)




(** ** C10: the caller's params object *)

(** C10: [info], [warn], [error] and [fatal], called with a params object
    that has an [error] key whose resolved error value ([parseError]'s
    output, or the raw value when that is falsy or no normalizer is
    configured) is truthy, return normally and leave the caller's own object
    with the [error] key deleted. *)
Theorem error_key_deleted_from_params
  props fetch_throws type message l w o parsed :
  type <> LDebug ->
  heap w !! l = Some o ->
  has_key "error" o = true ->
  parseError_opt props (get o "error") = Ok parsed ->
  truthy (or_else parsed (get o "error")) = true ->
  exists w',
    log props fetch_throws type message (Some l) w = (Ok tt, w') /\
    heap w' = <[l := delete_key "error" o]> (heap w) /\
    has_key "error" (deref w' l) = false.
Proof.
  intros Ht Hl Hk Hp Htr.
  pose proof (run_leveled props fetch_throws type message (Some l) w Ht) as H.
  unfold params_object, raw_error, heap_after in H.
  rewrite (deref_lookup _ _ _ Hl), Hp in H.
  destruct H as (w' & Hrun & Hh & _).
  exists w'. split; [exact Hrun|].
  rewrite Htr, Hk in Hh. simpl in Hh. split; [exact Hh|].
  unfold deref. rewrite Hh, lookup_insert_eq. simpl.
  unfold has_key. rewrite lookup_delete_key. reflexivity.
Qed.

Lemma error_key_deleted_from_params_witness :
  exists w',
    log Fixtures.plain Fixtures.transport_ok LError "x" (Some 1%nat)
      (Fixtures.world_with [("a", VNum 1); ("error", VStr "boom")]) = (Ok tt, w') /\
    heap w' = <[1%nat := delete_key "error" [("a", VNum 1); ("error", VStr "boom")]]>
                (heap (Fixtures.world_with [("a", VNum 1); ("error", VStr "boom")])) /\
    has_key "error" (deref w' 1%nat) = false.
Proof.
  apply (error_key_deleted_from_params Fixtures.plain Fixtures.transport_ok LError "x"
           1%nat (Fixtures.world_with [("a", VNum 1); ("error", VStr "boom")])
           [("a", VNum 1); ("error", VStr "boom")] VUndefined);
    [discriminate | reflexivity | reflexivity | reflexivity | reflexivity].
Defined.

(** ** C9: the console rendering *)



(** ** C7: the order of the merge *)



(** ** C8: a normalized error *)

(** C8, as stated, fails: when the default params themselves have an
    [error] key, the payload has an [error] field although [parseError]
    returned [{code: 500, detail: 'x'}]. *)
Lemma default_error_survives :
  let object :=
    [("level", VStr "INFO"); ("msg", VStr "m"); ("error", VStr "default");
     ("code", VNum 500); ("detail", VStr "x")] in
  fst (backendLogObject
         (Fixtures.normalizing (Const [("error", VStr "default")]))
         LInfo "m" (Some 1%nat) (Fixtures.world_with [("error", VStr "boom")]))
  = Ok object /\
  map fst (JSON.members object) = ["level"; "msg"; "error"; "code"; "detail"].
Proof. split; reflexivity. Qed.

(** C8, amended: when params has an [error] key and [parseError] returns
    [{code: 500, detail: 'x'}] for it, the serialised backend payload has
    [code] and [detail] as top-level members, and it has no [error] member
    provided the default params do not supply one. *)
Theorem normalized_error_replaces_error_field
  props type message l w o f :
  heap w !! l = Some o ->
  has_key "error" o = true ->
  parseError props = Some f ->
  f (get o "error") = Ok Fixtures.http_error ->
  lookup_key "error" (resolved_defaultParams props) = None ->
  exists object w',
    _constructBackendLogEvent props type message (Some l) w =
    (Ok {| jsonLog := JSON.stringify_object object; timestamp := clock w |}, w') /\
    In ("code", "500") (JSON.members object) /\
    In ("detail", JSON.quote "x") (JSON.members object) /\
    ~ In "error" (map fst (JSON.members object)).
Proof.
  intros Hl Hk Hf Hr Hd.
  assert (Hp : parseError_opt props (raw_error (params_object w (Some l)))
               = Ok Fixtures.http_error).
  { unfold parseError_opt. simpl. rewrite Hf, (deref_lookup _ _ _ Hl). exact Hr. }
  destruct (run_event props type message (Some l) w _ Hp) as (w' & Hrun & _ & _).
  simpl in Hrun. rewrite (deref_lookup _ _ _ Hl) in Hrun.
  change (or_else Fixtures.http_error (get o "error")) with Fixtures.http_error in Hrun.
  set (rest := spread (spread [] (delete_key "error" o))
                 (own_enumerable Fixtures.http_error)) in *.
  set (object := spread (spread (base type message) (resolved_defaultParams props)) rest)
    in *.
  change (remaining (Some o) Fixtures.http_error) with rest in Hrun.
  assert (Hu : unique_keys rest = true).
  { unfold rest. apply unique_spread, unique_spread. reflexivity. }
  assert (Hrest : forall k,
             lookup_key k rest =
             match lookup_key k (own_enumerable Fixtures.http_error) with
             | Some v => Some v
             | None => lookup_key k (spread [] (delete_key "error" o))
             end).
  { intros k. unfold rest. apply lookup_spread. reflexivity. }
  assert (Hobj : forall k,
             lookup_key k object =
             match lookup_key k rest with
             | Some v => Some v
             | None => lookup_key k (spread (base type message)
                                       (resolved_defaultParams props))
             end).
  { intros k. unfold object. apply lookup_spread. exact Hu. }
  exists object, w'. split; [exact Hrun|]. repeat split.
  - apply (members_In "code" (VNum 500)); [|reflexivity].
    rewrite Hobj, Hrest. reflexivity.
  - apply (members_In "detail" (VStr "x")); [|reflexivity].
    rewrite Hobj, Hrest. reflexivity.
  - apply members_absent. rewrite Hobj, Hrest. simpl.
    rewrite lookup_copy_deleted, lookup_spread_last, (lookup_rev_None _ _ Hd).
    apply lookup_base_other; reflexivity.
Qed.

Lemma normalized_error_replaces_error_field_witness :
  let props := Fixtures.normalizing (Const [("env", VStr "prod")]) in
  let w := Fixtures.world_with [("userId", VNum 42); ("error", VStr "boom")] in
  exists object w',
    _constructBackendLogEvent props LError "m" (Some 1%nat) w =
    (Ok {| jsonLog := JSON.stringify_object object; timestamp := clock w |}, w') /\
    In ("code", "500") (JSON.members object) /\
    In ("detail", JSON.quote "x") (JSON.members object) /\
    ~ In "error" (map fst (JSON.members object)).
Proof.
  apply (normalized_error_replaces_error_field
           (Fixtures.normalizing (Const [("env", VStr "prod")])) LError "m" 1%nat
           (Fixtures.world_with [("userId", VNum 42); ("error", VStr "boom")])
           [("userId", VNum 42); ("error", VStr "boom")]
           (fun _ => Ok Fixtures.http_error));
    reflexivity.
Defined.

(** ** C4: a normalizer that returns a falsy result *)

(** C4, as stated, fails: the normalizer returns [undefined] for the
    non-null error [{reason: 'timeout'}]; the payload has no [error] field
    and the error's own property is merged into it. *)
Lemma declined_error_is_merged :
  let object :=
    [("level", VStr "INFO"); ("msg", VStr "m"); ("reason", VStr "timeout")] in
  fst (backendLogObject Fixtures.declining LInfo "m" (Some 1%nat)
         (Fixtures.world_with [("error", VObj [("reason", VStr "timeout")])]))
  = Ok object /\
  map fst (JSON.members object) = ["level"; "msg"; "reason"].
Proof. split; reflexivity. Qed.

(** C4, amended: if [parseError] is configured and returns a falsy result
    for the non-null value under the [error] key of params, the raw value
    takes its place as the resolved error.  When the raw value is truthy the
    [error] key is deleted from the params and the raw value's own
    enumerable properties are spread into the payload in its stead; only when
    the raw value is itself falsy do the params stay as they are and does
    the raw [error] field remain in the serialised payload. *)
Theorem falsy_normalizer_falls_back_to_raw
  props type message l w o f r :
  heap w !! l = Some o ->
  unique_keys o = true ->
  has_key "error" o = true ->
  get o "error" <> VNull ->
  get o "error" <> VUndefined ->
  parseError props = Some f ->
  f (get o "error") = Ok r ->
  truthy r = false ->
  exists object w',
    backendLogObject props type message (Some l) w = (Ok object, w') /\
    if truthy (get o "error") then
      heap w' !! l = Some (delete_key "error" o) /\
      object =
        spread (spread (base type message) (resolved_defaultParams props))
          (spread (spread [] (delete_key "error" o)) (own_enumerable (get o "error"))) /\
      lookup_key "error" (spread [] (delete_key "error" o)) = None
    else
      w' = w /\
      lookup_key "error" object = Some (get o "error") /\
      exists text,
        JSON.stringify (get o "error") = Some text /\
        In ("error", text) (JSON.members object).
Proof.
  intros Hl Hu Hk Hnull Hundef Hf Hr Hfalsy.
  assert (Hp : parseError_opt props (raw_error (params_object w (Some l))) = Ok r).
  { unfold parseError_opt. simpl. rewrite Hf, (deref_lookup _ _ _ Hl). exact Hr. }
  pose proof (run_backendLogObject props type message (Some l) w r Hp) as Hrun.
  unfold params_object, raw_error, remaining in Hrun.
  rewrite (deref_lookup _ _ _ Hl) in Hrun.
  unfold or_else in Hrun. rewrite Hfalsy in Hrun. cbv zeta in Hrun.
  rewrite Hrun. clear Hrun.
  destruct (truthy (get o "error")) eqn:Hraw.
  - rewrite Hk. simpl. eexists _, _. split; [reflexivity|].
    split; [|split].
    + simpl. apply lookup_insert_eq.
    + reflexivity.
    + apply lookup_copy_deleted.
  - simpl. eexists _, _. split; [reflexivity|].
    assert (Hget : lookup_key "error" o = Some (get o "error")).
    { unfold get. unfold has_key in Hk.
      destruct (lookup_key "error" o); [reflexivity|discriminate]. }
    assert (Hobj : lookup_key "error"
                     (spread (spread (base type message) (resolved_defaultParams props)) o)
                   = Some (get o "error")).
    { rewrite lookup_spread by exact Hu. rewrite Hget. reflexivity. }
    split; [reflexivity|]. split; [exact Hobj|].
    assert (exists text, JSON.stringify (get o "error") = Some text) as [text Ht].
    { revert Hundef Hraw.
      destruct (get o "error"); simpl; intros; eauto; congruence. }
    exists text. split; [exact Ht|].
    eapply members_In; eauto.
Qed.

Lemma falsy_normalizer_falls_back_to_raw_witness :
  let o := [("userId", VNum 42); ("error", VNum 0)] in
  let w := Fixtures.world_with o in
  exists object w',
    backendLogObject Fixtures.declining LWarn "m" (Some 1%nat) w = (Ok object, w') /\
    if truthy (get o "error") then
      heap w' !! 1%nat = Some (delete_key "error" o) /\
      object =
        spread (spread (base LWarn "m") (resolved_defaultParams Fixtures.declining))
          (spread (spread [] (delete_key "error" o)) (own_enumerable (get o "error"))) /\
      lookup_key "error" (spread [] (delete_key "error" o)) = None
    else
      w' = w /\
      lookup_key "error" object = Some (get o "error") /\
      exists text,
        JSON.stringify (get o "error") = Some text /\
        In ("error", text) (JSON.members object).
Proof.
  apply (falsy_normalizer_falls_back_to_raw Fixtures.declining LWarn "m" 1%nat
           (Fixtures.world_with [("userId", VNum 42); ("error", VNum 0)])
           [("userId", VNum 42); ("error", VNum 0)]
           (fun _ => Ok VUndefined) VUndefined);
    try reflexivity; discriminate.
Defined.

(** * Further properties of the code *)

(** ** The log methods *)

Lemma send_gate_open props fetch_throws log w :
  send_gate props = true ->
  _sendLogToGrafana props fetch_throws log w =
  async (guarded_fetch props fetch_throws log) w.
Proof.
  unfold send_gate, _sendLogToGrafana, guarded_fetch.
  destruct (shouldSendLogsIf props) as [|b|f]; simpl; [reflexivity| |];
    intros ->; reflexivity.
Qed.


Lemma params_object_console a w params :
  params_object (push_console a w) params = params_object w params.
Proof. destruct params; reflexivity. Qed.

Lemma params_object_request r w params :
  params_object (push_request r w) params = params_object w params.
Proof. destruct params; reflexivity. Qed.








(** *** The transport fails *)

(** X2: when the send gate is open and [fetch] throws while starting the
    request, [_sendLogToGrafana] still returns normally; the request was
    attempted once, and the failure is reported by one [debug] entry
    ([error sending log], with the thrown object as params) on the console
    and by no further request. *)
Theorem transport_failure_is_reported_locally props fetch_throws log w e :
  send_gate props = true ->
  fetch_throws (post props log) = Some e ->
  rendering_returns props (Some (deref w e)) = true ->
  exists lines,
    _sendLogToGrafana props fetch_throws log w =
    (Ok tt,
     push_console
       (map CStr (_constructStyledConsoleLogMessage props LDebug "error sending log" lines)
          ++ [CRef e])
       (push_request (post props log) w)).
Proof.
  intros Hg Hf Hr. rewrite (send_gate_open _ _ _ _ Hg).
  unfold async, guarded_fetch, try_catch, fetch. rewrite Hf.
  set (w1 := push_request (post props log) w).
  destruct (run_params_lines props (Some e) w1) as (r & Hpl & Hok & _).
  destruct (Hok Hr) as [lines ->].
  exists lines. unfold debug, bind. rewrite Hpl. reflexivity.
Qed.

Lemma transport_failure_is_reported_locally_witness :
  exists lines,
    _sendLogToGrafana Fixtures.plain (fun _ => Some 1%nat) "{}"
      (Fixtures.world_with [("message", VStr "offline")]) =
    (Ok tt,
     push_console
       (map CStr (_constructStyledConsoleLogMessage Fixtures.plain LDebug
                    "error sending log" lines) ++ [CRef 1%nat])
       (push_request (post Fixtures.plain "{}")
          (Fixtures.world_with [("message", VStr "offline")]))).
Proof.
  apply (transport_failure_is_reported_locally Fixtures.plain (fun _ => Some 1%nat) "{}"
           (Fixtures.world_with [("message", VStr "offline")]) 1%nat);
    reflexivity.
Defined.

(** X3: if [fetch] throws an object that has an [error] key and the
    normalizer throws on it, the inner [debug] report throws inside the
    [async] body: the caller of [_sendLogToGrafana] still gets a normal
    return, nothing is written to the console, and the throw only rejects
    the unobserved promise. *)
Theorem failure_report_throw_is_swallowed props fetch_throws log w e f e' :
  send_gate props = true ->
  fetch_throws (post props log) = Some e ->
  parseError props = Some f ->
  has_key "error" (deref w e) = true ->
  f (get (deref w e) "error") = Throw e' ->
  _sendLogToGrafana props fetch_throws log w =
  (Ok tt, push_rejected e' (push_request (post props log) w)).
Proof.
  intros Hg Hf Hp Hk He. rewrite (send_gate_open _ _ _ _ Hg).
  unfold async, guarded_fetch, try_catch, fetch. rewrite Hf.
  set (w1 := push_request (post props log) w).
  destruct (run_params_lines props (Some e) w1) as (r & Hpl & _ & Hthrow).
  rewrite (Hthrow e f e' eq_refl Hp Hk He) in Hpl.
  unfold debug, bind. rewrite Hpl. reflexivity.
Qed.

Lemma failure_report_throw_is_swallowed_witness :
  _sendLogToGrafana Fixtures.throwing (fun _ => Some 1%nat) "{}"
    (Fixtures.world_with [("error", VStr "inner")]) =
  (Ok tt, push_rejected 9%nat
            (push_request (post Fixtures.throwing "{}")
               (Fixtures.world_with [("error", VStr "inner")]))).
Proof.
  apply (failure_report_throw_is_swallowed Fixtures.throwing (fun _ => Some 1%nat) "{}"
           (Fixtures.world_with [("error", VStr "inner")]) 1%nat
           (fun _ => Throw 9%nat) 9%nat); reflexivity.
Defined.

(** *** The gates *)









(** *** What a call never does *)

(** X7: whatever the level, the configuration, the params and the transport, a
    log call adds at most one request to the network, and a request it adds
    is a POST to the configured endpoint with the JSON content type. *)
Theorem at_most_one_post props fetch_throws type message params w :
  let w' := snd (log props fetch_throws type message params w) in
  network w' = network w \/
  exists text,
    network w' =
    network w ++
      [{| url := endpoint props;
          method := "POST";
          body := text;
          headers := [("Content-Type", "application/json; charset=utf-8")] |}].
Proof.
  assert (type = LDebug \/ type <> LDebug) as [->|Ht]
    by (destruct type; (left; reflexivity) || (right; discriminate)).
  - left. apply debug_frame.
  - pose proof (run_leveled props fetch_throws type message params w Ht) as H.
    destruct (parseError_opt props (raw_error (params_object w params))) as [parsed|e].
    + destruct H as (w' & -> & _ & Hn). cbn [snd]. rewrite Hn.
      destruct (send_gate props); [right; eexists; reflexivity|].
      left. apply app_nil_r.
    + destruct H as (w' & -> & _ & Hn). left. exact Hn.
Qed.

(** X8: a log call changes no object of the caller except its own params
    argument, and the only change it ever makes to that object is the removal
    of the [error] key. *)
Theorem only_error_key_of_params_changes props fetch_throws type message params w l :
  let w' := snd (log props fetch_throws type message params w) in
  heap w' !! l = heap w !! l \/
  (params = Some l /\ has_key "error" (deref w l) = true /\
   heap w' !! l = Some (delete_key "error" (deref w l))).
Proof.
  assert (type = LDebug \/ type <> LDebug) as [->|Ht]
    by (destruct type; (left; reflexivity) || (right; discriminate)).
  - left. cbv zeta.
    change (log props fetch_throws LDebug message params w)
      with (debug props message params w).
    rewrite (proj1 (debug_frame props message params w)). reflexivity.
  - pose proof (run_leveled props fetch_throws type message params w Ht) as H.
    destruct (parseError_opt props (raw_error (params_object w params))) as [parsed|e].
    + destruct H as (w' & -> & Hh & _). cbn [snd]. cbv zeta. rewrite Hh.
      unfold heap_after. destruct params as [l0|]; [|left; reflexivity].
      destruct (truthy _) ; [|left; reflexivity].
      destruct (has_key "error" (deref w l0)) eqn:Hk; [|left; reflexivity].
      simpl. destruct (Nat.eq_dec l0 l) as [->|Hne].
      * right. rewrite lookup_insert_eq. auto.
      * left. apply lookup_insert_ne. exact Hne.
    + destruct H as (w' & -> & Hh & _). left. cbn [snd]. cbv zeta. rewrite Hh. reflexivity.
Qed.

(** *** The params object over two calls *)

Lemma get_deleted o : get (delete_key "error" o) "error" = VUndefined.
Proof. unfold get. rewrite lookup_delete_key. reflexivity. Qed.

(** X9: after a levelled call has resolved a truthy error, a second call with
    the same params object finds no [error] key: its payload is built from
    the other params alone (for a normalizer that returns a falsy result on
    [undefined], or none). *)
Theorem second_call_has_lost_the_error
  props fetch_throws type message l w o parsed parsed' :
  type <> LDebug ->
  heap w !! l = Some o ->
  has_key "error" o = true ->
  parseError_opt props (get o "error") = Ok parsed ->
  truthy (or_else parsed (get o "error")) = true ->
  parseError_opt props VUndefined = Ok parsed' ->
  truthy parsed' = false ->
  exists w1,
    log props fetch_throws type message (Some l) w = (Ok tt, w1) /\
    forall type' message',
      fst (backendLogObject props type' message' (Some l) w1) =
      Ok (spread (spread (base type' message') (resolved_defaultParams props))
            (delete_key "error" o)).
Proof.
  intros Ht Hl Hk Hp Htr Hp' Hf.
  pose proof (run_leveled props fetch_throws type message (Some l) w Ht) as H.
  unfold params_object, raw_error, heap_after in H.
  rewrite (deref_lookup _ _ _ Hl), Hp in H.
  destruct H as (w1 & Hrun & Hh & _). rewrite Htr, Hk in Hh. simpl in Hh.
  exists w1. split; [exact Hrun|]. intros type' message'.
  assert (Hd : deref w1 l = delete_key "error" o).
  { unfold deref. rewrite Hh, lookup_insert_eq. reflexivity. }
  assert (Hp1 : parseError_opt props (raw_error (params_object w1 (Some l))) = Ok parsed').
  { simpl. rewrite Hd, get_deleted. exact Hp'. }
  rewrite (run_backendLogObject props type' message' (Some l) w1 parsed' Hp1).
  simpl. rewrite Hd, get_deleted. unfold or_else. rewrite Hf. reflexivity.
Qed.

Lemma second_call_has_lost_the_error_witness :
  let o := [("userId", VNum 42); ("error", VObj [("reason", VStr "timeout")])] in
  exists w1,
    log Fixtures.plain Fixtures.transport_ok LError "first" (Some 1%nat)
      (Fixtures.world_with o) = (Ok tt, w1) /\
    forall type' message',
      fst (backendLogObject Fixtures.plain type' message' (Some 1%nat) w1) =
      Ok (spread (spread (base type' message') (resolved_defaultParams Fixtures.plain))
            (delete_key "error" o)).
Proof.
  apply (second_call_has_lost_the_error Fixtures.plain Fixtures.transport_ok LError
           "first" 1%nat
           (Fixtures.world_with
              [("userId", VNum 42); ("error", VObj [("reason", VStr "timeout")])])
           [("userId", VNum 42); ("error", VObj [("reason", VStr "timeout")])]
           VUndefined VUndefined);
    [discriminate | reflexivity | reflexivity | reflexivity | reflexivity
     | reflexivity | reflexivity].
Defined.

(** *** An error that is not an object *)

(** X10: an error that is truthy but has no enumerable property of its own (a
    number, [true], a bare [Error] instance), with no normalizer result to
    replace it, vanishes from the payload: the key is deleted and nothing is
    merged in its place. *)
Theorem propertyless_error_is_dropped props type message l w o parsed :
  heap w !! l = Some o ->
  parseError_opt props (get o "error") = Ok parsed ->
  truthy parsed = false ->
  truthy (get o "error") = true ->
  own_enumerable (get o "error") = [] ->
  lookup_key "error" (resolved_defaultParams props) = None ->
  exists object,
    fst (backendLogObject props type message (Some l) w) = Ok object /\
    lookup_key "error" object = None /\
    ~ In "error" (map fst (JSON.members object)).
Proof.
  intros Hl Hp Hf Htr Hown Hd.
  assert (Hp0 : parseError_opt props (raw_error (params_object w (Some l))) = Ok parsed).
  { simpl. rewrite (deref_lookup _ _ _ Hl). exact Hp. }
  rewrite (run_backendLogObject props type message (Some l) w parsed Hp0).
  simpl. rewrite (deref_lookup _ _ _ Hl).
  unfold or_else. rewrite Hf, Htr, Hown.
  eexists. split; [reflexivity|].
  assert (Hnone : lookup_key "error"
                    (spread (spread (base type message) (resolved_defaultParams props))
                       (spread (spread [] (delete_key "error" o)) [])) = None).
  { rewrite lookup_spread by (apply unique_spread, unique_spread; reflexivity).
    change (spread (spread [] (delete_key "error" o)) [])
      with (spread [] (delete_key "error" o)).
    rewrite lookup_copy_deleted, lookup_spread_last, (lookup_rev_None _ _ Hd).
    apply lookup_base_other; reflexivity. }
  split; [exact Hnone|]. apply members_absent. exact Hnone.
Qed.

Lemma propertyless_error_is_dropped_witness :
  exists object,
    fst (backendLogObject Fixtures.plain LError "request failed" (Some 1%nat)
           (Fixtures.world_with [("url", VStr "/api"); ("error", VNum 404)])) = Ok object /\
    lookup_key "error" object = None /\
    ~ In "error" (map fst (JSON.members object)).
Proof.
  apply (propertyless_error_is_dropped Fixtures.plain LError "request failed" 1%nat
           (Fixtures.world_with [("url", VStr "/api"); ("error", VNum 404)])
           [("url", VStr "/api"); ("error", VNum 404)] VUndefined);
    reflexivity.
Defined.

(** *** What the backend event depends on *)




(** *** The level and the message in the payload *)

Lemma level_tag_upper type : Str.toUpperCase (level_name type) = level_tag type.
Proof. destruct type; reflexivity. Qed.

(** X12: unless the default params or the call's remaining params define
    [level] or [msg] themselves, the payload carries the method's level in
    upper case under [level] and the sanitised message under [msg]. *)
Theorem payload_level_and_msg props type message params w parsed :
  parseError_opt props (raw_error (params_object w params)) = Ok parsed ->
  unique_keys (resolved_defaultParams props) = true ->
  match params_object w params with
  | Some o => unique_keys o = true
  | None => True
  end ->
  let rest :=
    remaining (params_object w params)
      (or_else parsed (raw_error (params_object w params))) in
  lookup_key "level" (resolved_defaultParams props) = None ->
  lookup_key "msg" (resolved_defaultParams props) = None ->
  lookup_key "level" rest = None ->
  lookup_key "msg" rest = None ->
  exists object,
    fst (backendLogObject props type message params w) = Ok object /\
    lookup_key "level" object = Some (VStr (level_tag type)) /\
    lookup_key "msg" object = Some (VStr (sanitizedMessage message)).
Proof.
  intros Hp Hd Hu rest Hdl Hdm Hrl Hrm.
  rewrite (run_backendLogObject props type message params w parsed Hp).
  eexists. split; [reflexivity|]. fold rest. split.
  - rewrite lookup_spread by (apply unique_remaining; exact Hu).
    rewrite Hrl, lookup_spread, Hdl by exact Hd.
    unfold base. rewrite !lookup_define, level_tag_upper. reflexivity.
  - rewrite lookup_spread by (apply unique_remaining; exact Hu).
    rewrite Hrm, lookup_spread, Hdm by exact Hd.
    unfold base. rewrite !lookup_define. reflexivity.
Qed.

Lemma payload_level_and_msg_witness :
  exists object,
    fst (backendLogObject (Fixtures.props_with (Const [("env", VStr "prod")]) None Unset)
           LFatal "Out of memory!" (Some 1%nat)
           (Fixtures.world_with [("pid", VNum 7)])) = Ok object /\
    lookup_key "level" object = Some (VStr (level_tag LFatal)) /\
    lookup_key "msg" object = Some (VStr (sanitizedMessage "Out of memory!")).
Proof.
  apply (payload_level_and_msg
           (Fixtures.props_with (Const [("env", VStr "prod")]) None Unset)
           LFatal "Out of memory!" (Some 1%nat)
           (Fixtures.world_with [("pid", VNum 7)]) VUndefined);
    reflexivity.
Defined.

(** *** Line breaks in the console rendering *)

Lemma concat_push c sep p rest :
  String.concat sep (String c p :: rest) = String c (String.concat sep (p :: rest)).
Proof. destruct rest; reflexivity. Qed.

Lemma split_nonempty c s : Str.split c s <> [].
Proof.
  destruct s as [|a s]; simpl; [discriminate|].
  destruct (Ascii.eqb a c); [discriminate|]. destruct (Str.split c s); discriminate.
Qed.

Lemma join_split_space s :
  Str.join (String (ascii_of_nat 10) EmptyString) (Str.split " " s)
  = newline_for_space s.
Proof.
  unfold Str.join. induction s as [|a s IH]; [reflexivity|].
  simpl. destruct (Ascii.eqb a " ") eqn:E.
  - pose proof (split_nonempty " " s) as Hne.
    destruct (Str.split " " s) as [|p rest]; [contradiction|].
    cbn [String.concat]. rewrite <- IH. reflexivity.
  - pose proof (split_nonempty " " s) as Hne.
    destruct (Str.split " " s) as [|p rest]; [contradiction|].
    rewrite concat_push, IH. reflexivity.
Qed.

(** X13: the params text handed to the styled console message is the log
    string with every space, also one inside a value, turned into a line
    feed; and computing it leaves the world as it is. *)
Theorem params_lines_break_at_spaces props params w :
  params_lines props params w =
  (match fst (_transformObjectToLogString props params w) with
   | Ok s => Ok (newline_for_space s)
   | Throw e => Throw e
   end, w).
Proof.
  unfold params_lines, bind. destruct params as [l|].
  - rewrite run_transform. cbn [fst].
    destruct (forEach props (deref w l) (Object_keys (deref w l)) "") as [s|e];
      [|reflexivity].
    unfold ret. rewrite join_split_space. reflexivity.
  - reflexivity.
Qed.

(** *** The normalizer on a call without an error *)

(** X14: the normalizer is called on every levelled call, with [undefined]
    when params has no [error] key: if it throws then, the call throws to its
    caller after the console entry (if the console gate is open) has been
    written, and nothing is sent. *)
Theorem normalizer_is_called_without_error
  props fetch_throws type message params w e :
  type <> LDebug ->
  rendering_returns props (params_object w params) = true ->
  parseError_opt props (raw_error (params_object w params)) = Throw e ->
  exists lines,
    fst (params_lines props params w) = Ok lines /\
    log props fetch_throws type message params w =
    (Throw e,
     if _shouldLogToConsole props
     then push_console
            (map CStr (_constructStyledConsoleLogMessage props type message lines)) w
     else w).
Proof.
  intros Ht Hr Hp.
  destruct (run_params_lines props params w) as (r & Hpl & Hok & _).
  destruct (Hok Hr) as [lines ->].
  exists lines. split; [rewrite Hpl; reflexivity|].
  rewrite (log_leveled _ _ _ _ _ Ht). unfold leveled.
  unfold bind at 1. rewrite Hpl. unfold bind at 1.
  destruct (_shouldLogToConsole props).
  - unfold console_log, bind, _constructBackendLogEvent, bind.
    rewrite (backendLogObject_throws props type message params _ e)
      by (rewrite params_object_console; exact Hp).
    reflexivity.
  - unfold ret, bind, _constructBackendLogEvent, bind.
    rewrite (backendLogObject_throws props type message params _ e) by exact Hp.
    reflexivity.
Qed.

Lemma normalizer_is_called_without_error_witness :
  exists lines,
    fst (params_lines Fixtures.throwing (Some 1%nat)
           (Fixtures.world_with [("userId", VNum 42)])) = Ok lines /\
    log Fixtures.throwing Fixtures.transport_ok LInfo "user login" (Some 1%nat)
      (Fixtures.world_with [("userId", VNum 42)]) =
    (Throw 9%nat,
     if _shouldLogToConsole Fixtures.throwing
     then push_console
            (map CStr (_constructStyledConsoleLogMessage Fixtures.throwing LInfo
                         "user login" lines))
            (Fixtures.world_with [("userId", VNum 42)])
     else Fixtures.world_with [("userId", VNum 42)]).
Proof.
  apply (normalizer_is_called_without_error Fixtures.throwing Fixtures.transport_ok
           LInfo "user login" (Some 1%nat) (Fixtures.world_with [("userId", VNum 42)])
           9%nat); [discriminate | reflexivity | reflexivity].
Defined.

(** *** A normalized error on the console *)

Lemma resolve_other props k v :
  String.eqb k "error" = false -> resolve props (k, v) = Ok v.
Proof. intros H. unfold resolve. simpl. rewrite H. reflexivity. Qed.

Lemma tokens_cons_skip kv rest :
  printable kv = false -> tokens (kv :: rest) = tokens rest.
Proof. intros H. unfold tokens. simpl. rewrite H. reflexivity. Qed.

Lemma tokens_cons_keep kv rest :
  printable kv = true -> tokens (kv :: rest) = token kv :: tokens rest.
Proof. intros H. unfold tokens. simpl. rewrite H. reflexivity. Qed.

Lemma resolve_all_hidden props f raw r entries :
  parseError props = Some f ->
  f raw = Ok r ->
  isString r || isNumber r = false ->
  (forall v, In ("error", v) entries -> v = raw) ->
  exists resolved,
    resolve_all props entries = Ok resolved /\
    tokens resolved = tokens (delete_key "error" entries).
Proof.
  intros Hf Hr Hnp. induction entries as [|[k v] entries IH]; intros Hin.
  - exists []. split; reflexivity.
  - destruct IH as (resolved & Hres & Htok).
    { intros v' H. apply Hin. right. exact H. }
    cbn [resolve_all]. destruct (String.eqb k "error") eqn:E.
    + apply String.eqb_eq in E. subst k.
      rewrite (Hin v (or_introl eq_refl)).
      unfold resolve. cbn [fst snd]. rewrite String.eqb_refl, Hf, Hr, Hres.
      eexists. split; [reflexivity|].
      rewrite tokens_cons_skip by exact Hnp.
      change (delete_key "error" (("error", v) :: entries))
        with (delete_key "error" entries).
      exact Htok.
    + rewrite (resolve_other _ _ _ E), Hres.
      eexists. split; [reflexivity|].
      assert (E' : String.eqb "error" k = false) by (rewrite String.eqb_sym; exact E).
      change (delete_key "error" ((k, v) :: entries))
        with (if negb (String.eqb "error" k)
              then (k, v) :: delete_key "error" entries
              else delete_key "error" entries).
      rewrite E'. cbn [negb fst].
      destruct (printable (k, v)) eqn:Hpr.
      * rewrite !tokens_cons_keep by exact Hpr. rewrite Htok. reflexivity.
      * rewrite !tokens_cons_skip by exact Hpr. exact Htok.
Qed.

(** X15: when the normalizer returns something that is neither a string nor a
    number for the [error] value (an object of fields, as its type says), the
    console log string shows no [error] token at all: it is the log string
    of the params without the [error] key. *)
Theorem normalized_error_is_not_rendered props l w o f r :
  heap w !! l = Some o ->
  unique_keys o = true ->
  parseError props = Some f ->
  f (get o "error") = Ok r ->
  isString r || isNumber r = false ->
  _transformObjectToLogString props (Some l) w =
  (Ok (rendering (delete_key "error" o)), w).
Proof.
  intros Hl Hu Hf Hr Hnp.
  destruct (resolve_all_hidden props f (get o "error") r o Hf Hr Hnp)
    as (resolved & Hres & Htok).
  { intros v Hin. unfold get. rewrite (unique_lookup _ _ _ Hu Hin). reflexivity. }
  rewrite run_transform, (deref_lookup _ _ _ Hl).
  unfold Object_keys. rewrite forEach_entries.
  - rewrite Hres.
    change (String.append "" (spaced (tokens resolved))) with (spaced (tokens resolved)).
    unfold rendering. rewrite trim_spaced, Htok. reflexivity.
  - intros k v. apply unique_lookup. exact Hu.
Qed.

Lemma normalized_error_is_not_rendered_witness :
  let o := [("userId", VNum 42); ("error", VStr "boom"); ("page", VStr "home")] in
  _transformObjectToLogString (Fixtures.normalizing Unset) (Some 1%nat)
    (Fixtures.world_with o) =
  (Ok (rendering (delete_key "error" o)), Fixtures.world_with o) /\
  tokens (delete_key "error" o) = ["userId=42"; "page=home"].
Proof.
  split; [|reflexivity].
  apply (normalized_error_is_not_rendered (Fixtures.normalizing Unset) 1%nat
           (Fixtures.world_with
              [("userId", VNum 42); ("error", VStr "boom"); ("page", VStr "home")])
           [("userId", VNum 42); ("error", VStr "boom"); ("page", VStr "home")]
           (fun _ => Ok Fixtures.http_error) Fixtures.http_error);
    reflexivity.
Defined.

(** *** The colour of the styled message *)


(** ** Sanitisation *)

Lemma length_of_chars l : String.length (string_of_list_ascii l) = length l.
Proof. induction l as [|c l IH]; simpl; [reflexivity|]. rewrite IH. reflexivity. Qed.

Lemma length_to_chars s : length (list_ascii_of_string s) = String.length s.
Proof. induction s as [|c s IH]; simpl; [reflexivity|]. rewrite IH. reflexivity. Qed.

Lemma scan_length n : forall bol s, length s <= n -> length (scan bol s) <= length s.
Proof.
  induction n as [|n IH]; intros bol s Hn.
  - destruct s; [rewrite scan_nil; reflexivity | simpl in Hn; lia].
  - destruct s as [|c s]; [rewrite scan_nil; reflexivity|].
    rewrite scan_cons. simpl in Hn.
    destruct (orelse (alt1 (c :: s)) (alt2 bol (c :: s))) as [m|] eqn:Hm.
    + destruct (match_pos _ _ _ Hm) as [j ->].
      change (skipn (S j) (c :: s)) with (skipn j s).
      pose proof (length_skipn_le j s).
      specialize (IH false (skipn j s) ltac:(lia)). simpl. lia.
    + specialize (IH false s ltac:(lia)). simpl. lia.
Qed.

Lemma trimStart_length s : length (trimStart s) <= length s.
Proof.
  induction s as [|c s IH]; simpl; [lia|]. destruct (space c); simpl; lia.
Qed.

Lemma trimEnd_length s : length (trimEnd s) <= length s.
Proof.
  induction s as [|c s IH]; simpl; [lia|].
  destruct (trimEnd s) as [|c' r]; [destruct (space c)|]; simpl in *; lia.
Qed.

(** X17: the sanitised message is never longer than the message. *)
Theorem sanitized_not_longer (message : string) :
  String.length (sanitizedMessage message) <= String.length message.
Proof.
  unfold sanitizedMessage, sanitize_chars, toLowerCase, trim, replace_all.
  rewrite length_of_chars, length_map.
  pose proof (scan_length _ true (list_ascii_of_string message) (le_n _)) as H1.
  unfold scan in H1.
  pose proof (trimStart_length
                (replace_from message_regex [" "%char] true 0
                   (list_ascii_of_string message))) as H2.
  pose proof (trimEnd_length
                (trimStart (replace_from message_regex [" "%char] true 0
                              (list_ascii_of_string message)))) as H3.
  rewrite length_to_chars in H1. lia.
Qed.

(** X18: the sanitised message has no whitespace at either end and no
    upper-case letter: trimming it or lowercasing it again changes nothing,
    for every message. *)
Theorem sanitized_is_trimmed_and_lowercase (message : string) :
  let t := list_ascii_of_string (sanitizedMessage message) in
  trim t = t /\ toLowerCase t = t.
Proof.
  unfold sanitizedMessage. rewrite list_ascii_of_string_of_list_ascii.
  unfold sanitize_chars. split.
  - rewrite trim_toLowerCase, trim_idem. reflexivity.
  - apply toLowerCase_idem.
Qed.

Lemma no_punct_settled p s :
  in_run p = false -> no_punct s = true -> settled p s = true.
Proof.
  revert p. induction s as [|c s IH]; intros p Hp H; simpl.
  - rewrite Hp. reflexivity.
  - simpl in H. apply andb_true_iff in H as [Hc H].
    apply negb_true_iff in Hc. rewrite Hc.
    destruct (space c); [rewrite Hp; simpl|]; apply IH; auto.
Qed.

(** X19: a message without any character of the punctuation set is only
    trimmed and lowercased. *)
Theorem sanitize_without_punctuation (message : string) :
  no_punct (list_ascii_of_string message) = true ->
  list_ascii_of_string (sanitizedMessage message)
  = toLowerCase (trim (list_ascii_of_string message)).
Proof.
  intros H. unfold sanitizedMessage. rewrite list_ascii_of_string_of_list_ascii.
  unfold sanitize_chars, replace_all.
  change (replace_from message_regex [" "%char] true 0 (list_ascii_of_string message))
    with (scan true (list_ascii_of_string message)).
  rewrite (scan_settled_id Gap true); [reflexivity|reflexivity|].
  apply no_punct_settled; [reflexivity|exact H].
Qed.

Lemma sanitize_without_punctuation_witness :
  no_punct (list_ascii_of_string "  User Login OK ") = true /\
  list_ascii_of_string (sanitizedMessage "  User Login OK ")
  = toLowerCase (trim (list_ascii_of_string "  User Login OK ")).
Proof.
  split; [reflexivity|].
  apply (sanitize_without_punctuation "  User Login OK "). reflexivity.
Defined.

Lemma no_word_skipn k s : no_word s = true -> no_word (skipn k s) = true.
Proof.
  revert s. induction k as [|k IH]; intros s H; [exact H|].
  destruct s as [|c s]; [reflexivity|]. simpl in H.
  apply andb_true_iff in H as [_ H]. apply (IH s H).
Qed.

Lemma scan_no_word n : forall bol s,
  length s <= n -> no_word s = true -> forallb space (scan bol s) = true.
Proof.
  induction n as [|n IH]; intros bol s Hn Hs.
  - destruct s; [rewrite scan_nil; reflexivity | simpl in Hn; lia].
  - destruct s as [|c s]; [rewrite scan_nil; reflexivity|].
    simpl in Hn. pose proof Hs as Hs0. simpl in Hs.
    apply andb_true_iff in Hs as [Hc Hs].
    assert (Hrest : forall j, forallb space (scan false (skipn j s)) = true).
    { intros j. apply IH; [pose proof (length_skipn_le j s); lia|].
      apply no_word_skipn. exact Hs. }
    rewrite scan_cons.
    destruct (orelse (alt1 (c :: s)) (alt2 bol (c :: s))) as [m|] eqn:Hm.
    + destruct (match_pos _ _ _ Hm) as [j ->].
      change (skipn (S j) (c :: s)) with (skipn j s).
      simpl. apply Hrest.
    + destruct (punct c) eqn:Hp.
      * exfalso. unfold orelse in Hm.
        rewrite alt1_punct in Hm by assumption.
        pose proof (run_after_run s) as Hr.
        pose proof (no_word_skipn (run s) s Hs) as Hw.
        destruct (skipn (run s) s) as [|c' r]; [discriminate|].
        simpl in Hr, Hw. destruct (punct c'); [discriminate|].
        simpl in Hw. apply andb_true_iff in Hw as [Hw _].
        rewrite Hw in Hm. discriminate.
      * simpl in Hc. simpl. rewrite Hc. simpl. apply (Hrest 0).
Qed.

Lemma trimStart_blank s : forallb space s = true -> trimStart s = [].
Proof.
  induction s as [|c s IH]; [reflexivity|]. simpl. intros H.
  apply andb_true_iff in H as [Hc H]. rewrite Hc. apply IH. exact H.
Qed.

(** X20: a message made of punctuation and whitespace only is sanitised to the
    empty string. *)
Theorem sanitize_without_words (message : string) :
  no_word (list_ascii_of_string message) = true ->
  sanitizedMessage message = "".
Proof.
  intros H. unfold sanitizedMessage, sanitize_chars, trim, replace_all.
  change (replace_from message_regex [" "%char] true 0 (list_ascii_of_string message))
    with (scan true (list_ascii_of_string message)).
  rewrite trimStart_blank; [reflexivity|].
  apply (scan_no_word _ true _ (le_n _) H).
Qed.

Lemma sanitize_without_words_witness :
  no_word (list_ascii_of_string " -- (!) ... ") = true /\
  sanitizedMessage " -- (!) ... " = "".
Proof.
  split; [reflexivity|]. apply (sanitize_without_words " -- (!) ... "). reflexivity.
Defined.

(** X21: when no punctuation character of the message is followed by one
    whitespace character and then punctuation, every punctuation run left in
    the sanitised message has a word character on both sides: none touches
    whitespace or an end of the string. *)
Theorem sanitized_punctuation_is_interior (message : string) :
  no_punct_space_punct (list_ascii_of_string message) = true ->
  settled Gap (list_ascii_of_string (sanitizedMessage message)) = true.
Proof.
  intros H. unfold sanitizedMessage. rewrite list_ascii_of_string_of_list_ascii.
  apply sanitize_chars_settled. exact H.
Qed.

Lemma sanitized_punctuation_is_interior_witness :
  no_punct_space_punct (list_ascii_of_string "Hello (big) wide-open world!") = true /\
  settled Gap (list_ascii_of_string (sanitizedMessage "Hello (big) wide-open world!"))
  = true.
Proof.
  split; [reflexivity|].
  apply (sanitized_punctuation_is_interior "Hello (big) wide-open world!").
  reflexivity.
Defined.
